(** * Royal Mini Golf Quest (app.js): scoring helpers, round state and persistence

    src/app.js holds three successive listings of the same script: v1.1, the
    first v2.0 and the hardened v2.0 (the one with [isValidScore],
    [isValidCourse] and the validating [loadState]).  Module [Golf] embeds the
    hardened listing, which is the current program; modules [V1] and [V2]
    embed the functions of the two earlier listings that later sections refer
    to.  Module [JS] holds the JavaScript values and built-ins the script
    relies on.  Modules [Ini] and [IniV1] embed the parser of the hole
    stories, [Setup] the name inputs of the setup, [Panel] the button bar and
    the score cards, and [Browser] the entries of the session history with
    the listeners that depend on them.  Module [Samples] has a few rounds to
    run the functions on, and module [Facts] what is proved.

    What is modelled: the script's four globals, the class flags of the page
    sections the script switches, the entry of localStorage under
    [STORAGE_KEY], the alerts raised, and in [Browser] the addresses pushed
    to and replaced in the session history.  What is not: the HTML written
    into the page beyond what the modules above describe, and haptic
    feedback. *)

From Stdlib Require Import ZArith List String Ascii Lia Bool DecimalString.
From Stdlib Require Import Sorted Permutation.
From stdpp Require Import base list strings gmap.
Import ListNotations.

Open Scope string_scope.
Open Scope Z_scope.

(** ** JavaScript values and built-ins *)

Module JS.

(** A JavaScript number as far as the script can tell numbers apart.  The
    script compares numbers with integer constants, adds or subtracts one, and
    uses them as array indices; for all of these a finite non-integer is
    determined by the integer just below it.  [Frac b] is any non-integer
    strictly between [b] and [b + 1] (2.5 is [Frac 2], -0.5 is [Frac (-1)]). *)
Inductive number :=
  | Int (z : Z)
  | Frac (below : Z).

Definition floor (x : number) : Z :=
  match x with Int z => z | Frac b => b end.

(** Number.isInteger(x) *)
Definition isInteger (x : number) : bool :=
  match x with Int _ => true | Frac _ => false end.

(** x < k, x >= k, k <= x, x > k and x === k for an integer k *)
Definition lt_int (x : number) (k : Z) : bool := floor x <? k.
Definition ge_int (x : number) (k : Z) : bool := k <=? floor x.
Definition int_le (k : Z) (x : number) : bool := k <=? floor x.
Definition le_int (x : number) (k : Z) : bool :=
  match x with Int z => z <=? k | Frac b => b <? k end.
Definition gt_int (x : number) (k : Z) : bool := negb (le_int x k).
Definition is_int (x : number) (k : Z) : bool :=
  match x with Int z => z =? k | Frac _ => false end.

(** x++ and x-- *)
Definition incr (x : number) : number :=
  match x with Int z => Int (z + 1) | Frac b => Frac (b + 1) end.
Definition decr (x : number) : number :=
  match x with Int z => Int (z - 1) | Frac b => Frac (b - 1) end.

(** `${z}` for an integer z: decimal digits, with a leading hyphen when
    negative. *)
Definition show (z : Z) : string := NilZero.string_of_int (Z.to_int z).

(** An array element as the script's score arrays hold them: a hole of the
    array (reads as undefined), null, or a number of strokes. *)
Inductive score :=
  | Hole
  | Null
  | Strokes (n : Z).

(** The element position a number denotes, if any: a[x] addresses an element
    only when x is a non-negative integer (below 2^32 - 1, far above any
    position the script uses). *)
Definition index (x : number) : option nat :=
  match x with
  | Int z => if 0 <=? z then Some (Z.to_nat z) else None
  | Frac _ => None
  end.

(** a[x]: undefined (here [Hole]) outside the array. *)
Definition item (a : list score) (x : number) : score :=
  match index x with
  | Some i => default Hole (a !! i)
  | None => Hole
  end.

(** a[x] = v.  In range the element is replaced; past the end the array grows
    and the gap is left as holes; for an x that is no element position the
    assignment creates a named property and leaves the elements alone. *)
Definition assign (a : list score) (x : number) (v : score) : list score :=
  match index x with
  | Some i =>
      if (i <? length a)%nat then <[i:=v]> a
      else a ++ replicate (i - length a) Hole ++ [v]
  | None => a
  end.

(** s === null *)
Definition is_null (s : score) : bool :=
  match s with Null => true | _ => false end.

(** a.filter(s => s !== null).reduce((sum, s) => sum + s, 0): filter passes
    over the holes and drops the nulls, reduce adds up what is left. *)
Definition kept (s : score) : bool :=
  match s with Strokes _ => true | _ => false end.

Definition add_score (sum : Z) (s : score) : Z :=
  match s with Strokes n => sum + n | _ => sum end.

Definition sum_scores (a : list score) : Z :=
  fold_left add_score (List.filter kept a) 0.

(** Strings.  A string is a sequence of characters, one per UTF-16 code unit
    for the text the script measures or cuts (player names, input values).
    Display literals with characters outside ASCII are kept as they are
    written in the source; the script never measures them. *)

(** s.slice(0, n) *)
Definition slice0 (n : nat) (s : string) : string := substring 0 n s.

(** White space as String.prototype.trim and parseInt see it, among the
    characters below U+0100: tab, line feed, vertical tab, form feed, carriage
    return, space and no-break space. *)
Definition white (c : ascii) : bool :=
  let n := nat_of_ascii c in
  ((9 <=? n) && (n <=? 13) || (n =? 32) || (n =? 160))%nat.

Fixpoint trimStart (s : string) : string :=
  match s with
  | String c s' => if white c then trimStart s' else s
  | EmptyString => EmptyString
  end.

(** Drops the white space at the end: a white character stays only when
    something is kept after it. *)
Fixpoint trimEnd (s : string) : string :=
  match s with
  | String c s' =>
      match trimEnd s' with
      | EmptyString => if white c then EmptyString else String c EmptyString
      | t => String c t
      end
  | EmptyString => EmptyString
  end.

(** s.trim() *)
Definition trim (s : string) : string := trimEnd (trimStart s).

(** parseInt(s, 10): white space is skipped, one sign is read, then the
    longest run of decimal digits; NaN (here [None]) when there is no digit.
    Whatever follows the digits is ignored. *)
Definition digit (c : ascii) : option Z :=
  let n := nat_of_ascii c in
  if ((48 <=? n) && (n <=? 57))%nat then Some (Z.of_nat n - 48) else None.

Fixpoint digits (acc : Z) (s : string) : Z :=
  match s with
  | String c s' =>
      match digit c with
      | Some d => digits (10 * acc + d) s'
      | None => acc
      end
  | EmptyString => acc
  end.

Definition unsigned (s : string) : option Z :=
  match s with
  | String c _ =>
      match digit c with
      | Some _ => Some (digits 0 s)
      | None => None
      end
  | EmptyString => None
  end.

Definition parseInt (s : string) : option Z :=
  match trimStart s with
  | String "-" s' => option_map Z.opp (unsigned s')
  | String "+" s' => unsigned s'
  | s' => unsigned s'
  end.

(** Array.prototype.sort(cmp) on a copy.  Since ECMAScript 2019 the sort is
    stable, so for a consistent comparator the result is fixed: the sorted
    arrangement in which elements that compare equal keep their order.
    Insertion from the right computes it: an element moves past exactly the
    elements that must come before it. *)
Section Sort.
Context {A : Type} (cmp : A -> A -> Z).

Fixpoint insert_sorted (x : A) (l : list A) : list A :=
  match l with
  | [] => [x]
  | y :: l' => if 0 <? cmp x y then y :: insert_sorted x l' else x :: l
  end.

Fixpoint sort (l : list A) : list A :=
  match l with
  | [] => []
  | x :: l' => insert_sorted x (sort l')
  end.
End Sort.

#[local] Set Warnings "-register-all".

(** What JSON.parse returns.  Numbers are finite: a literal too large for a
    double parses to Infinity, which fails every check below and is left
    out. *)
Inductive json :=
  | JNull
  | JBool (b : bool)
  | JNum (n : number)
  | JStr (s : string)
  | JArr (items : list json)
  | JObj (fields : list (string * json)).

(** v.k for one of the property names the script reads from a parsed snapshot
    (course, hole, players, gameStarted, name, scores): the property of an
    object, undefined (here [None]) when the object lacks it or v is a
    number, boolean, string or array, none of which has a property of these
    names. *)
Fixpoint lookup_field (k : string) (fields : list (string * json)) : option json :=
  match fields with
  | [] => None
  | (k', v) :: rest => if String.eqb k k' then Some v else lookup_field k rest
  end.

Definition prop (v : json) (k : string) : option json :=
  match v with
  | JObj fields => lookup_field k fields
  | _ => None
  end.

(** Truthiness of a value read from a snapshot; [None] is undefined. *)
Definition truthy (v : option json) : bool :=
  match v with
  | None | Some JNull => false
  | Some (JBool b) => b
  | Some (JNum (Int z)) => negb (z =? 0)
  | Some (JNum (Frac _)) => true
  | Some (JStr s) => negb (String.eqb s "")
  | Some (JArr _) | Some (JObj _) => true
  end.

(** String(v), also the property key v stands for.  A string is its own text;
    the text of any other value (digits for a number, the joined items for an
    array, ...) is left to the parameter [text_of], which gives [None] where
    the conversion throws, as it does for an object whose own toString is no
    function, such as {"toString": 1}, and for an array that holds one. *)
Definition to_text (text_of : json -> option string) (v : json) : option string :=
  match v with
  | JStr s => Some s
  | _ => text_of v
  end.

End JS.

Import JS.

(** ** The hardened v2.0 listing *)

Module Golf.

Definition STORAGE_KEY : string := "royalMiniGolfState".
Definition MAX_PLAYERS : Z := 6.
Definition HOLES_COUNT : Z := 18.

(** const coursePars = { dragon: [...], knight: [...] } *)
Definition coursePars : gmap string (list Z) :=
  <["dragon" := [2; 3; 2; 3; 2; 3; 2; 3; 2; 3; 2; 3; 2; 3; 2; 3; 2; 4]]>
  (<["knight" := [2; 3; 2; 3; 2; 3; 2; 3; 2; 3; 2; 3; 2; 3; 2; 3; 2; 4]]> ∅).

(** const courseNames = { dragon: ..., knight: ... } *)
Definition courseNames : gmap string string :=
  <["dragon" := "🐉 Dragon Slayer"]>
  (<["knight" := "⚔️ Knight's Challenge"]> ∅).

(** What getScoreDescription returns: { text, class }. *)
Record description := Description { text : string; class : string }.

(** function getScoreDescription(strokes, par) *)
Definition getScoreDescription (strokes par : Z) : description :=
  let diff := strokes - par in
  if strokes =? 1 then Description "Hole in One! ⭐" "hole-in-one"
  else if diff <=? -2 then Description ("Eagle! (" ++ show diff ++ ") 🦅") "eagle"
  else if diff =? -1 then Description "Birdie! (−1) 🐦" "birdie"
  else if diff =? 0 then Description "Par ✓" "par"
  else if diff =? 1 then Description "Bogey (+1)" "bogey"
  else if diff =? 2 then Description "Double Bogey (+2)" "double-bogey"
  else Description ("+" ++ show diff) "high-score".

(** The classification rule in the specification's words: the first rule that
    applies, hole in one before eagle. *)
Inductive category : Z -> Z -> string -> Prop :=
  | cat_hole_in_one par : category 1 par "hole-in-one"
  | cat_eagle strokes par :
      strokes <> 1 -> strokes - par <= -2 -> category strokes par "eagle"
  | cat_birdie strokes par :
      strokes <> 1 -> strokes - par = -1 -> category strokes par "birdie"
  | cat_par strokes par :
      strokes <> 1 -> strokes - par = 0 -> category strokes par "par"
  | cat_bogey strokes par :
      strokes <> 1 -> strokes - par = 1 -> category strokes par "bogey"
  | cat_double_bogey strokes par :
      strokes <> 1 -> strokes - par = 2 -> category strokes par "double-bogey"
  | cat_over_par strokes par :
      strokes <> 1 -> strokes - par >= 3 -> category strokes par "high-score".

(** *** The round state *)

(** A player object: { name, scores, total }. *)
Record player := Player { name : string; scores : list score; total : Z }.

(** The class flags the script switches on the page: `hidden` on
    #playerSetup, `active` on #holePlay, #summarySection and
    #scorecardModal.  The page is assumed to contain these elements. *)
Record view := View {
  playerSetup_hidden : bool;
  holePlay_active : bool;
  summarySection_active : bool;
  scorecardModal_active : bool
}.

(** What localStorage holds under STORAGE_KEY: the empty string, a text that
    JSON.parse refuses, or a text that parses to a value.  JSON.stringify
    followed by JSON.parse is taken to give back the value written. *)
Inductive entry :=
  | EmptyText
  | Malformed
  | Document (v : json).

(** The script's globals, the page flags and the storage entry ([None] when
    the key is absent).  Storage calls are taken to succeed. *)
Record world := World {
  currentCourse : string;
  players : list player;
  currentHole : number;
  gameStarted : bool;
  page : view;
  storage : option entry
}.

(** What a call lets the user or the console know. *)
Inductive notice :=
  | Alert (msg : string)
  | ConsoleError
  | Uncaught.

Definition set_course (c : string) (w : world) : world :=
  World c (players w) (currentHole w) (gameStarted w) (page w) (storage w).
Definition set_players (ps : list player) (w : world) : world :=
  World (currentCourse w) ps (currentHole w) (gameStarted w) (page w) (storage w).
Definition set_hole (h : number) (w : world) : world :=
  World (currentCourse w) (players w) h (gameStarted w) (page w) (storage w).
Definition set_started (b : bool) (w : world) : world :=
  World (currentCourse w) (players w) (currentHole w) b (page w) (storage w).
Definition set_page (v : view) (w : world) : world :=
  World (currentCourse w) (players w) (currentHole w) (gameStarted w) v (storage w).
Definition set_storage (e : option entry) (w : world) : world :=
  World (currentCourse w) (players w) (currentHole w) (gameStarted w) (page w) e.

(** *** Utilities *)

(** obj.hasOwnProperty(key) *)
Definition hasOwnProperty {A : Type} (obj : gmap string A) (key : string) : bool :=
  match obj !! key with Some _ => true | None => false end.

(** function isValidCourse(course), for a string *)
Definition isValidCourse (course : string) : bool :=
  negb (String.eqb course "")
  && hasOwnProperty courseNames course
  && hasOwnProperty coursePars course.

(** function isValidScore(strokes) *)
Definition isValidScore (strokes : number) : bool :=
  isInteger strokes && ge_int strokes 1 && le_int strokes 11.

(** function isValidPlayerIndex(idx) *)
Definition isValidPlayerIndex (w : world) (idx : number) : bool :=
  isInteger idx && ge_int idx 0 && lt_int idx (Z.of_nat (length (players w))).

(** coursePars[course]; the callers have checked the course. *)
Definition pars_of (course : string) : list Z :=
  default [] (coursePars !! course).

(** *** Scoring helpers *)

(** The loop of getParDifferential,
      for (let i = 0; i <= currentHole && i < pars.length; i++)
        if (player.scores[i] !== null) { parTotal += pars[i]; holesPlayed++; }
    run for at most [fuel] rounds on the pair (parTotal, holesPlayed). *)
Fixpoint par_loop (fuel : nat) (i : Z) (hole : number) (pars : list Z)
    (a : list score) (acc : Z * Z) : Z * Z :=
  match fuel with
  | O => acc
  | S fuel' =>
      if int_le i hole && (i <? Z.of_nat (length pars)) then
        par_loop fuel' (i + 1) hole pars a
          (if is_null (item a (Int i)) then acc
           else (fst acc + default 0 (pars !! Z.to_nat i), snd acc + 1))
      else acc
  end.

(** function getParDifferential(player); a player object always has its
    scores, so the first guard never fires.  The loop leaves after at most
    pars.length rounds. *)
Definition getParDifferential (w : world) (p : player) : string :=
  if negb (isValidCourse (currentCourse w)) then "E"
  else
    let pars := pars_of (currentCourse w) in
    let '(parTotal, holesPlayed) :=
      par_loop (length pars) 0 (currentHole w) pars (scores p) (0, 0) in
    if holesPlayed =? 0 then "E"
    else
      let diff := total p - parTotal in
      if diff =? 0 then "E"
      else if 0 <? diff then "+" ++ show diff else show diff.

(** *** Persistence *)

Definition score_json (s : score) : json :=
  match s with
  | Strokes n => JNum (Int n)
  | Null | Hole => JNull
  end.

Definition player_json (p : player) : json :=
  JObj [("name", JStr (name p)); ("scores", JArr (map score_json (scores p)))].

(** The object saveState serialises. *)
Definition snapshot (w : world) : json :=
  JObj [("course", JStr (currentCourse w));
        ("hole", JNum (currentHole w));
        ("players", JArr (map player_json (players w)));
        ("gameStarted", JBool (gameStarted w))].

(** function saveState() *)
Definition saveState (w : world) : world :=
  set_storage (Some (Document (snapshot w))) w.

(** localStorage.removeItem(STORAGE_KEY) *)
Definition removeItem (w : world) : world := set_storage None w.

(** *** Game flow *)

(** What renderHole does to the globals: an unknown course falls back to
    'dragon', a hole number outside 0..17 to 0.  The rest of renderHole
    writes the page. *)
Definition renderHole (w : world) : world :=
  let w1 := if isValidCourse (currentCourse w) then w else set_course "dragon" w in
  if lt_int (currentHole w1) 0 || ge_int (currentHole w1) HOLES_COUNT
  then set_hole (Int 0) w1 else w1.

(** The name startGame gives the player of input number i (from 0):
    (input.value.trim() || `Player ${i + 1}`).slice(0, 20) *)
Definition player_name (i : nat) (value : string) : string :=
  let t := trim value in
  slice0 20 (if String.eqb t "" then "Player " ++ show (Z.of_nat i + 1) else t).

Definition new_player (i : nat) (value : string) : player :=
  Player (player_name i value) (replicate (Z.to_nat HOLES_COUNT) Null) 0.

(** function startGame(); [inputs] are the values of the name inputs of the
    page, in document order.  The second emptiness test of the source cannot
    fire after the first. *)
Definition startGame (inputs : list string) (w : world) : world * option notice :=
  match inputs with
  | [] => (w, Some (Alert "Add at least one player"))
  | _ =>
      let w := set_players (imap new_player inputs) w in
      let w := if isValidCourse (currentCourse w) then w else set_course "dragon" w in
      let w := set_started true w in
      let w := set_hole (Int 0) w in
      let w := set_page (View true true (summarySection_active (page w))
                           (scorecardModal_active (page w))) w in
      (saveState (renderHole w), None)
  end.

(** players[playerIdx].scores[currentHole] = strokes and the new total *)
Definition record (hole : number) (strokes : Z) (p : player) : player :=
  let a := assign (scores p) hole (Strokes strokes) in
  Player (name p) a (sum_scores a).

(** function updateScore(playerIdx, value) *)
Definition updateScore (playerIdx : number) (value : string) (w : world)
    : world * option notice :=
  match parseInt value with
  | None => (w, None)
  | Some strokes =>
      if negb (isValidPlayerIndex w playerIdx) then (w, Some ConsoleError)
      else if negb (isValidScore (Int strokes)) then (w, Some ConsoleError)
      else if negb (isValidCourse (currentCourse w)) then (w, Some ConsoleError)
      else
        let i := Z.to_nat (floor playerIdx) in
        let w := set_players (alter (record (currentHole w) strokes) i (players w)) w in
        (saveState (renderHole w), None)
  end.

(** function endGame(); buildLeaderboard only writes the page. *)
Definition endGame (w : world) : world :=
  let w := set_started false w in
  let w := set_page (View (playerSetup_hidden (page w)) false true
                       (scorecardModal_active (page w))) w in
  removeItem w.

(** function nextHole() *)
Definition nextHole (w : world) : world * option notice :=
  if existsb (fun p => is_null (item (scores p) (currentHole w))) (players w)
  then (w, Some (Alert "Enter scores for all players"))
  else if lt_int (currentHole w) (HOLES_COUNT - 1)
  then (saveState (renderHole (set_hole (incr (currentHole w)) w)), None)
  else (endGame w, None).

(** function goBackToSetup(); the player names also go back into the name
    inputs of the page. *)
Definition goBackToSetup (w : world) : world :=
  let w := set_started false w in
  let w := set_page (View false false (summarySection_active (page w))
                       (scorecardModal_active (page w))) w in
  removeItem w.

(** The popstate listener: what the browser runs when it has moved to
    another entry of the page in the session history. *)
Definition popstate (w : world) : world :=
  if scorecardModal_active (page w) then
    set_page (View (playerSetup_hidden (page w)) (holePlay_active (page w))
                (summarySection_active (page w)) false) w
  else if gameStarted w then
    if is_int (currentHole w) 0 then goBackToSetup w
    else saveState (renderHole (set_hole (decr (currentHole w)) w))
  else w.

(** function showScorecards(), as far as the flags go *)
Definition showScorecards (w : world) : world :=
  match players w with
  | [] => w
  | _ =>
      if negb (isValidCourse (currentCourse w)) then w
      else set_page (View (playerSetup_hidden (page w)) (holePlay_active (page w))
                       (summarySection_active (page w)) true) w
  end.

(** The click listener of a course button: ignored once the round has
    started. *)
Definition selectCourse (course : string) (w : world) : world :=
  if gameStarted w then w else saveState (set_course course w).



(** *** Loading *)

Section Load.
(** The text of a snapshot value that is not a string, [None] where the
    conversion throws, see [to_text]. *)
Variable text_of : json -> option string.

(** The property key a snapshot value stands for; an absent value is
    undefined. *)
Definition key_of (v : option json) : option string :=
  match v with
  | Some v => to_text text_of v
  | None => Some "undefined"
  end.

(** isValidCourse(course) for the course of a parsed snapshot: the value
    has to be truthy and its property key has to be a course.  A falsy value
    is refused before any conversion.  Where the conversion to a key throws,
    the catch of loadState does what the refusal does, with the globals still
    untouched: the entry is removed and false returned; so that course counts
    as not valid. *)
Definition isValidCourseValue (course : option json) : bool :=
  truthy course
  && match key_of course with
     | Some key => isValidCourse key
     | None => false
     end.

(** (s !== null && isValidScore(s)) ? s : null; isValidScore is false on
    whatever is not a number. *)
Definition load_score (s : json) : score :=
  match s with
  | JNum (Int z) => if isValidScore (Int z) then Strokes z else Null
  | _ => Null
  end.

(** p && p.k *)
Definition guarded_prop (p : json) (k : string) : option json :=
  if truthy (Some p) then prop p k else None.

(** (p && p.name) ? String(p.name).slice(0, 20) : 'Player', [None] where
    String(p.name) throws. *)
Definition load_name (p : json) : option string :=
  match guarded_prop p "name" with
  | Some v =>
      if truthy (Some v) then option_map (slice0 20) (to_text text_of v)
      else Some "Player"
  | None => Some "Player"
  end.

Definition load_scores (p : json) : list score :=
  match guarded_prop p "scores" with
  | Some (JArr items) =>
      if Z.of_nat (length items) =? HOLES_COUNT then map load_score items
      else replicate (Z.to_nat HOLES_COUNT) Null
  | _ => replicate (Z.to_nat HOLES_COUNT) Null
  end.

(** One player of the snapshot, total recalculated; [None] where the name
    throws. *)
Definition load_player (p : json) : option player :=
  match load_name p with
  | Some n =>
      let a := load_scores p in
      Some (Player n a (sum_scores a))
  | None => None
  end.

(** ps.map(p => ...) followed by the totals: the players in order, [None]
    as soon as one of them throws. *)
Fixpoint load_players (ps : list json) : option (list player) :=
  match ps with
  | [] => Some []
  | p :: ps' =>
      match load_player p with
      | Some q => option_map (cons q) (load_players ps')
      | None => None
      end
  end.

(** The globals and flags loadState sets once the snapshot has passed the
    three checks and the players are read.  Of the stored gameStarted the
    world keeps the truthiness, which is all the script tests, and of the
    stored course the property key it stands for, which is all the script
    looks up. *)
Definition restore (course : string) (gs : option json) (loaded : list player)
    (hole : number) (w : world) : world :=
  let w := set_course course w in
  let w := set_started (truthy gs) w in
  let w := set_players loaded w in
  let w := set_page (View true true (summarySection_active (page w))
                       (scorecardModal_active (page w))) w in
  let w := set_hole hole w in
  renderHole w.

(** Where a name throws, the catch finds currentCourse and gameStarted
    already written, the players, the hole number and the page not yet. *)
Definition interrupted (course : string) (gs : option json) (w : world) : world :=
  removeItem (set_started (truthy gs) (set_course course w)).

(** function loadState(): the new world and the boolean returned.  A value
    that cannot be destructured (null) throws inside the try, like a text
    that does not parse, and so does a player name that has no text; the
    catch removes the entry and returns false.  A course that has passed the
    check has a key. *)
Definition loadState (w : world) : world * bool :=
  match storage w with
  | None | Some EmptyText => (w, false)
  | Some Malformed | Some (Document JNull) => (removeItem w, false)
  | Some (Document parsed) =>
      let course := prop parsed "course" in
      let gs := prop parsed "gameStarted" in
      if negb (isValidCourseValue course) then (removeItem w, false)
      else
        match prop parsed "players" with
        | Some (JArr (p :: ps)) =>
            match prop parsed "hole" with
            | Some (JNum hole) =>
                if lt_int hole 0 || ge_int hole HOLES_COUNT
                then (removeItem w, false)
                else
                  match key_of course, load_players (p :: ps) with
                  | Some key, Some loaded => (restore key gs loaded hole w, true)
                  | Some key, None => (interrupted key gs w, false)
                  | None, _ => (removeItem w, false)
                  end
            | _ => (removeItem w, false)
            end
        | _ => (removeItem w, false)
        end
  end.
End Load.

(** *** Leaderboard *)

(** One row of a score card: hole number, par, score, and the +/- text. *)
Record row := Row {
  row_hole : Z;
  row_par : option Z;
  row_score : score;
  row_diff : string
}.

(** One card of the leaderboard. *)
Record card := Card {
  trophy : string;
  rank : Z;
  card_name : string;
  rows : list row;
  card_par : Z;
  card_total : Z;
  displayDiff : string;
  achievements : list string
}.

Record board := Board {
  winner_name : string;
  winner_total : Z;
  parText : string;
  cards : list card
}.

(** d === 0 ? 'E' : d > 0 ? `+${d}` : `${d}` *)
Definition signed (d : Z) : string :=
  if d =? 0 then "E" else if 0 <? d then "+" ++ show d else show d.

(** The rows of player.scores.map((score, hi) => ...); map passes over the
    holes of the array.  Past the last par, score - par is NaN. *)
Definition score_row (pars : list Z) (hi : nat) (s : score) : list row :=
  let par := pars !! hi in
  match s with
  | Hole => []
  | Null => [Row (Z.of_nat hi + 1) par Null "–"]
  | Strokes n =>
      [Row (Z.of_nat hi + 1) par s
         (match par with Some p => signed (n - p) | None => "NaN" end)]
  end.

(** The body of player.scores.forEach((score, hi) => ...) collecting the
    achievements. *)
Definition score_achievements (pars : list Z) (hi : nat) (s : score) : list string :=
  match s with
  | Strokes n =>
      (if n =? 1 then ["⭐ Hole in One"] else [])
      ++ match pars !! hi with
         | Some p => if n - p <=? -2 then ["🦅 Eagle"] else []
         | None => []
         end
  | _ => []
  end.

Definition trophy_of (i : nat) : string :=
  match i with
  | 0%nat => "🏆"
  | 1%nat => "🥈"
  | 2%nat => "🥉"
  | _ => ""
  end.

(** [...players].sort((a, b) => a.total - b.total) *)
Definition sorted_players (ps : list player) : list player :=
  sort (fun a b => total a - total b) ps.

Definition leaderboard_card (pars : list Z) (totalPar : Z) (i : nat) (p : player) : card :=
  Card (trophy_of i) (Z.of_nat i + 1) (name p)
    (concat (imap (score_row pars) (scores p)))
    totalPar (total p) (signed (total p - totalPar))
    (concat (imap (score_achievements pars) (scores p))).

(** function buildLeaderboard(): what it shows, [None] when one of its two
    guards returns early.  The sorted list is empty exactly when the player
    list is; its first element is the winner. *)
Definition buildLeaderboard (w : world) : option board :=
  let sorted := sorted_players (players w) in
  match sorted with
  | [] => None
  | winner :: _ =>
      if negb (isValidCourse (currentCourse w)) then None
      else
        let pars := pars_of (currentCourse w) in
        let totalPar := fold_left Z.add pars 0 in
        let diff := total winner - totalPar in
        Some (Board (name winner) (total winner)
                (if diff =? 0 then "at par"
                 else if 0 <? diff then show diff ++ " over par"
                 else show (Z.abs diff) ++ " under par")
                (imap (leaderboard_card pars totalPar) sorted))
  end.

(** The description renderHole shows under a player's selector: none for a
    null score.  [None] also stands for the cases without a number of strokes
    or without a par, where the source computes with undefined. *)
Definition par_at (w : world) : option Z :=
  match index (currentHole w) with
  | Some i => pars_of (currentCourse w) !! i
  | None => None
  end.

Definition shown_description (w : world) (p : player) : option description :=
  match item (scores p) (currentHole w), par_at w with
  | Strokes n, Some par => Some (getScoreDescription n par)
  | _, _ => None
  end.

(** *** The states and sums of the specification *)

(** Playing(h): the round is started on hole h of a known course. *)
Definition Playing (h : Z) (w : world) : Prop :=
  gameStarted w = true /\ currentHole w = Int h /\ 0 <= h <= 17
  /\ isValidCourse (currentCourse w) = true.

(** Summary: the round is over and the summary section is shown. *)
Definition Summary (w : world) : Prop :=
  gameStarted w = false /\ summarySection_active (page w) = true
  /\ holePlay_active (page w) = false.

(** Paused/BackToSetup: the round is stopped and the setup section is shown,
    the players still there. *)
Definition BackToSetup (w : world) : Prop :=
  gameStarted w = false /\ playerSetup_hidden (page w) = false
  /\ holePlay_active (page w) = false.

(** The pars of the 18 holes, as both courses have them. *)
Definition the_pars : list Z :=
  [2; 3; 2; 3; 2; 3; 2; 3; 2; 3; 2; 3; 2; 3; 2; 3; 2; 4].

(** a[i] !== null *)
Definition played (a : list score) (i : nat) : bool :=
  negb (is_null (item a (Int (Z.of_nat i)))).

(** The holes up to hole h (from 0) at which the score array holds something
    other than null, in order. *)
Definition played_holes (a : list score) (h : nat) : list nat :=
  List.filter (played a) (seq 0 (S h)).

(** The par of the played holes, added up. *)
Definition par_sum (pars : list Z) (holes : list nat) : Z :=
  fold_right Z.add 0 (map (fun i => default 0 (pars !! i)) holes).

Definition running_par (pars : list Z) (a : list score) (h : nat) : Z :=
  par_sum pars (played_holes a h).

(** The strokes of an array of scores, added up. *)
Fixpoint strokes_sum (a : list score) : Z :=
  match a with
  | [] => 0
  | Strokes n :: a' => n + strokes_sum a'
  | _ :: a' => strokes_sum a'
  end.

(** A score slot as the data model has it: unscored or 1 to 11 strokes. *)
Definition slot_ok (s : score) : Prop :=
  s = Null \/ exists n, s = Strokes n /\ 1 <= n <= 11.


(** The player a reload gives back: name and scores, total recalculated. *)
Definition recounted (p : player) : player :=
  Player (name p) (scores p) (sum_scores (scores p)).


(** A stored hole number passes the check of loadState when it is a number
    from 0 up to, but not including, 18; nothing asks for an integer. *)
Definition hole_passes (hole : option json) : Prop :=
  exists n, hole = Some (JNum n) /\ 0 <= floor n < 18.

(** A player as the data model has it: 18 proper slots and their sum as
    total. *)
Definition player_ok (p : player) : Prop :=
  length (scores p) = 18%nat /\ Forall slot_ok (scores p)
  /\ total p = strokes_sum (scores p).

(** What every world the script gets to has in common. *)
Definition proper (w : world) : Prop :=
  Forall player_ok (players w)
  /\ 0 <= floor (currentHole w) <= 17
  /\ (gameStarted w = true -> isValidCourse (currentCourse w) = true).


(** A name as startGame makes it: not empty, at most 20 characters. *)
Definition name_ok (s : string) : Prop :=
  s <> "" /\ (String.length s <= 20)%nat.

(** What "persisted" asks of the stored document, field by field.  A slot is
    stored as null when it holds no score and as the number of its strokes
    otherwise; a player as an object with the name and the array of the
    stored slots, in order; the round as an object with the course, the hole
    number, the started flag and the array of the stored players, in
    order. *)
Inductive slot_saved : score -> json -> Prop :=
  | saved_hole : slot_saved Hole JNull
  | saved_null : slot_saved Null JNull
  | saved_strokes n : slot_saved (Strokes n) (JNum (Int n)).

Definition player_saved (p : player) (v : json) : Prop :=
  prop v "name" = Some (JStr (name p))
  /\ exists items,
       prop v "scores" = Some (JArr items)
       /\ Forall2 slot_saved (scores p) items.

Definition round_saved (w : world) (doc : json) : Prop :=
  prop doc "course" = Some (JStr (currentCourse w))
  /\ prop doc "hole" = Some (JNum (currentHole w))
  /\ prop doc "gameStarted" = Some (JBool (gameStarted w))
  /\ exists stored,
       prop doc "players" = Some (JArr stored)
       /\ Forall2 player_saved (players w) stored.

(** The names of the stored players are read without a conversion that
    could throw: each is absent, falsy or a string. *)
Definition plain_name (p : json) : Prop :=
  match guarded_prop p "name" with
  | Some v => truthy (Some v) = false \/ exists s, v = JStr s
  | None => True
  end.

End Golf.

(** ** The v1.1 listing, where it differs *)

Module V1.
Import Golf.

(** function getScoreDescription(strokes, par); the last return of the source
    is for a difference that is not a number. *)
Definition getScoreDescription (strokes par : Z) : description :=
  let diff := strokes - par in
  if strokes =? 1 then Description "Hole in One! ⭐" "hole-in-one"
  else if diff <=? -2 then Description ("Eagle! (" ++ show diff ++ ") 🦅") "eagle"
  else if diff =? -1 then Description "Birdie! (-1) 🐦" "birdie"
  else if diff =? 0 then Description "Par ✓" "par"
  else if diff =? 1 then Description "Bogey (+1)" "bogey"
  else if diff =? 2 then Description "Double Bogey (+2)" "double-bogey"
  else if 3 <=? diff then Description ("+" ++ show diff ++ " 😅") "high-score"
  else Description "" "".

(** The loop of getParTotal,
      for (let i = 0; i <= Math.min(currentHole, 17); i++) *)
Fixpoint par_loop (fuel : nat) (i : Z) (hole : number) (pars : list Z)
    (a : list score) (acc : Z * Z) : Z * Z :=
  match fuel with
  | O => acc
  | S fuel' =>
      if int_le i hole && (i <=? 17) then
        par_loop fuel' (i + 1) hole pars a
          (if is_null (item a (Int i)) then acc
           else (fst acc + default 0 (pars !! Z.to_nat i), snd acc + 1))
      else acc
  end.

(** function getParTotal(player), for a course of coursePars; the loop leaves
    after at most 18 rounds. *)
Definition getParTotal (w : world) (p : player) : string :=
  let '(totalPar, scoredHoles) :=
    par_loop 18 0 (currentHole w) (pars_of (currentCourse w)) (scores p) (0, 0) in
  if scoredHoles =? 0 then "E"
  else
    let diff := total p - totalPar in
    if diff =? 0 then "E"
    else if 0 <? diff then "+" ++ show diff else show diff.

(** function updateScore(idx, val): no check of the index or of the value; an
    index without a player makes the assignment throw. *)
Definition updateScore (idx : number) (val : string) (w : world)
    : world * option notice :=
  match parseInt val with
  | None => (w, None)
  | Some s =>
      match index idx with
      | Some i =>
          match players w !! i with
          | Some _ =>
              (saveState (set_players (alter (record (currentHole w) s) i (players w)) w),
               None)
          | None => (w, Some Uncaught)
          end
      | None => (w, Some Uncaught)
      end
  end.

(** function startGame(): the player list is replaced before the emptiness
    test, and the hole number is left as it is. *)
Definition startGame (inputs : list string) (w : world) : world * option notice :=
  let named value :=
    let t := trim value in
    Player (if String.eqb t "" then "Anonymous Knight" else t)
      (replicate 18 Null) 0 in
  let w := set_players (map named inputs) w in
  match inputs with
  | [] => (w, Some (Alert "Add at least one knight!"))
  | _ =>
      let w := set_started true w in
      let w := set_page (View true true (summarySection_active (page w))
                           (scorecardModal_active (page w))) w in
      (saveState w, None)
  end.

(** The achievements of buildLeaderboard, with the third kind. *)
Definition score_achievements (pars : list Z) (hi : nat) (s : score) : list string :=
  match s with
  | Strokes n =>
      (if n =? 1 then ["⭐ Hole in One"] else [])
      ++ match pars !! hi with
         | Some p => if n - p <=? -2 then ["🦅 Eagle"] else []
         | None => []
         end
      ++ (if 10 <=? n then ["🎯 Persistence"] else [])
  | _ => []
  end.

End V1.

(** ** The first v2.0 listing, where it differs *)

Module V2.
Import Golf.

(** function previousHole(): the hole number is lowered in place; renderHole
    only writes the page in this listing. *)
Definition previousHole (w : world) : world :=
  if gt_int (currentHole w) 0
  then saveState (set_hole (decr (currentHole w)) w)
  else w.

End V2.

(** ** The hole stories: parseINI and the story of a hole *)

(** The text of the stories is taken to consist of characters below U+0100,
    as the strings of [JS] are. *)

Module Ini.
Import Golf.

(** text.split(/[\r\n]+/): the pieces between runs of line breaks, an empty
    piece included where the text starts or ends with a break.  [acc] is the
    piece being read, [after_break] tells that the last character was a
    break. *)
Definition is_break (c : ascii) : bool :=
  let n := nat_of_ascii c in ((n =? 10) || (n =? 13))%nat.

Fixpoint split_breaks (acc : string) (after_break : bool) (s : string) : list string :=
  match s with
  | EmptyString => [acc]
  | String c s' =>
      if is_break c then
        if after_break then split_breaks acc true s'
        else acc :: split_breaks EmptyString true s'
      else split_breaks (acc ++ String c EmptyString) false s'
  end.

Definition lines (text : string) : list string :=
  split_breaks EmptyString false text.

(** s.startsWith(c) and s.endsWith(c) for one character *)
Definition startsWith (c : ascii) (s : string) : bool :=
  match s with
  | String c' _ => Ascii.eqb c' c
  | EmptyString => false
  end.

Fixpoint endsWith (c : ascii) (s : string) : bool :=
  match s with
  | EmptyString => false
  | String c' EmptyString => Ascii.eqb c' c
  | String _ s' => endsWith c s'
  end.

(** s.slice(1, -1) *)
Definition inner (s : string) : string :=
  substring 1 (String.length s - 2) s.

(** s.indexOf(c), [None] for -1 *)
Fixpoint indexOf (c : ascii) (s : string) : option nat :=
  match s with
  | EmptyString => None
  | String c' s' =>
      if Ascii.eqb c' c then Some 0%nat else option_map S (indexOf c s')
  end.

(** s.slice(i) *)
Definition slice_from (i : nat) (s : string) : string :=
  substring i (String.length s - i) s.

(** What parseINI builds.  [sections] are the properties of `data`: one
    object of keys and values per section.  A header [__proto__] makes no
    property: the assignment data['__proto__'] = {} installs the new object
    as the prototype of `data`, here [inherited], and the key lines under
    that header write into it. *)
Record table := Table {
  sections : gmap string (gmap string string);
  inherited : option (gmap string string)
}.

Definition no_table : table := Table ∅ None.

(** data[section] = {} *)
Definition open_section (section : string) (data : table) : table :=
  if String.eqb section "__proto__" then Table (sections data) (Some ∅)
  else Table (<[section := ∅]> (sections data)) (inherited data).

(** data[section][key] = value, for a section a header has opened.  A
    string assigned to the key __proto__ is dropped by JavaScript. *)
Definition put (section key value : string) (data : table) : table :=
  if String.eqb key "__proto__" then data
  else if String.eqb section "__proto__" then
    Table (sections data) (option_map (insert key value) (inherited data))
  else Table (alter (insert key value) section (sections data)) (inherited data).

(** One round of the loop of parseINI on the pair (data, section); the
    section is [None] while it is null. *)
Definition parse_line (st : table * option string) (lineRaw : string)
    : table * option string :=
  let '(data, section) := st in
  let line := trim lineRaw in
  if String.eqb line "" || startsWith ";" line then st
  else if startsWith "[" line && endsWith "]" line then
    (open_section (inner line) data, Some (inner line))
  else
    match section with
    | Some sec =>
        if String.eqb sec "" then st
        else
          match indexOf "=" line with
          | Some idx =>
              if (0 <? idx)%nat then
                (put sec (trim (slice0 idx line)) (trim (slice_from (S idx) line)) data,
                 section)
              else st
          | None => st
          end
    | None => st
    end.

(** function parseINI(text) *)
Definition parse_lines (st : table * option string) (ls : list string)
    : table * option string :=
  fold_left parse_line ls st.

Definition parseINI (text : string) : table :=
  fst (parse_lines (no_table, None) (lines text)).

(** What data[section][key] reads after parsing, for a section name other
    than __proto__. *)
Definition entry_of (data : table) (section key : string) : option string :=
  match sections data !! section with
  | Some keys => keys !! key
  | None => None
  end.

(** holeStories[course]: the section of that name, or else what the
    inherited object has under the name, a string. *)
Inductive found :=
  | Section_found (keys : gmap string string)
  | Text_found (s : string)
  | Nothing_found.

Definition course_stories (stories : table) (course : string) : found :=
  match sections stories !! course with
  | Some keys => Section_found keys
  | None =>
      match inherited stories with
      | Some keys =>
          match keys !! course with
          | Some s => Text_found s
          | None => Nothing_found
          end
      | None => Nothing_found
      end
  end.

(** holeStories[currentCourse]?.[String(currentHole + 1)]
      || 'Your quest continues...'
    in renderHole, for currentCourse 'dragon' or 'knight' and a whole hole
    number.  Indexing a string gives the character at that position. *)
Definition holeStory (stories : table) (course : string) (hole : Z) : string :=
  let n := hole + 1 in
  let story :=
    match course_stories stories course with
    | Section_found keys => keys !! show n
    | Text_found s =>
        if 0 <=? n then option_map (fun c => String c EmptyString) (get (Z.to_nat n) s)
        else None
    | Nothing_found => None
    end in
  match story with
  | Some text => if String.eqb text "" then "Your quest continues..." else text
  | None => "Your quest continues..."
  end.

(** *** What the lines and the table are like *)



(** A piece of the text with something in it. *)
Definition nonblank (s : string) : bool := negb (String.eqb s "").

(** A text without a line break. *)
Fixpoint one_line (s : string) : bool :=
  match s with
  | EmptyString => true
  | String c s' => negb (is_break c) && one_line s'
  end.

(** The lines the loop passes over whatever it has read before: blank
    lines, comments, and lines that are no header and have no '=' past their
    first character. *)
Definition ignored (raw : string) : bool :=
  let line := trim raw in
  String.eqb line "" || startsWith ";" line
  || (negb (startsWith "[" line && endsWith "]" line)
      && match indexOf "=" line with Some (S _) => false | _ => true end).

End Ini.

(** The v1.1 parseINI: the line is cut at the first '=' also when nothing
    stands before it. *)
Module IniV1.
Import Golf Ini.

Definition parse_line (st : table * option string) (lineRaw : string)
    : table * option string :=
  let '(data, section) := st in
  let line := trim lineRaw in
  if String.eqb line "" || startsWith ";" line then st
  else if startsWith "[" line && endsWith "]" line then
    (open_section (inner line) data, Some (inner line))
  else
    match section with
    | Some sec =>
        if String.eqb sec "" then st
        else
          match indexOf "=" line with
          | Some idx =>
              (put sec (trim (slice0 idx line)) (trim (slice_from (S idx) line)) data,
               section)
          | None => st
          end
    | None => st
    end.

Definition parseINI (text : string) : table :=
  fst (fold_left parse_line (lines text) (no_table, None)).

(** The table without what is stored under the empty key. *)
Definition strip (data : table) : table :=
  Table (delete "" <$> sections data) (delete "" <$> inherited data).

End IniV1.

(** ** Player management: the name inputs of the setup *)

Module Setup.
Import Golf.

(** The children of #playerInputs, one per player, are given as the list of
    the values of their name inputs, in document order. *)

(** The two empty inputs resetGame writes into #playerInputs. *)
Definition resetGame_inputs : list string := [""; ""].

(** function addPlayer(): a new empty input at the end, unless the cap is
    reached. *)
Definition addPlayer (inputs : list string) : list string * option notice :=
  if MAX_PLAYERS <=? Z.of_nat (length inputs)
  then (inputs, Some (Alert ("Maximum " ++ show MAX_PLAYERS ++ " players allowed")))
  else (app inputs [""], None).

(** function removePlayer(btn), for the button of input number i (from 0) *)
Definition removePlayer (i : nat) (inputs : list string) : list string * option notice :=
  if (length inputs <=? 1)%nat
  then (inputs, Some (Alert "At least one player required"))
  else (delete i inputs, None).

(** The user writes a name into input number i. *)
Definition type_name (i : nat) (value : string) (inputs : list string) : list string :=
  <[i := value]> inputs.

(** The inputs the setup can show after resetGame, by adding, removing and
    writing; a remove button and a name belong to an input that is there. *)
Inductive shown : list string -> Prop :=
  | shown_reset : shown resetGame_inputs
  | shown_add inputs : shown inputs -> shown (fst (addPlayer inputs))
  | shown_remove i inputs :
      shown inputs -> (i < length inputs)%nat -> shown (fst (removePlayer i inputs))
  | shown_type i value inputs :
      shown inputs -> (i < length inputs)%nat -> shown (type_name i value inputs).

End Setup.

(** ** The button bar and the score cards *)

Module Panel.
Import Golf.

(** The functions the buttons of the bar call. *)
Inductive handler :=
  | Call_goBackToSetup
  | Call_previousHole
  | Call_showScorecards
  | Call_nextHole.


(** players.every(p => p.scores[currentHole] !== null) *)
Definition allScoresEntered (w : world) : bool :=
  forallb (fun p => negb (is_null (item (scores p) (currentHole w)))) (players w).


(** One card of the score card modal. *)
Record scorecard := Scorecard {
  card_rank : Z;
  card_player : string;
  card_rows : list (row * bool);
  card_parPlayed : option Z;
  card_strokes : Z;
  card_differential : string
}.

(** sorted.findIndex(p => p.name === player.name) + 1 *)
Fixpoint findIndex (pname : string) (sorted : list player) : Z :=
  match sorted with
  | [] => -1
  | p :: rest =>
      if String.eqb (name p) pname then 0
      else
        let i := findIndex pname rest in
        if i <? 0 then -1 else i + 1
  end.

(** The loop of showScorecards,
      for (let i = 0; i <= currentHole; i++)
        if (player.scores[i] !== null) parPlayed += coursePars[currentCourse][i];
    run for at most [fuel] rounds.  The sum is [None] once it is not a
    number: a hole past the last par has been added. *)
Fixpoint played_loop (fuel : nat) (i : Z) (hole : number) (pars : list Z)
    (a : list score) (parPlayed : option Z) : option Z :=
  match fuel with
  | O => parPlayed
  | S fuel' =>
      if int_le i hole then
        played_loop fuel' (i + 1) hole pars a
          (if is_null (item a (Int i)) then parPlayed
           else match parPlayed, pars !! Z.to_nat i with
                | Some sum, Some par => Some (sum + par)
                | _, _ => None
                end)
      else parPlayed
  end.

(** The rows of a card: as on the leaderboard, with the mark of the current
    hole. *)
Definition current_row (pars : list Z) (hole : number) (hi : nat) (s : score)
    : list (row * bool) :=
  map (fun r => (r, is_int hole (Z.of_nat hi))) (score_row pars hi s).

Definition modal_scorecard (w : world) (sorted : list player) (p : player) : scorecard :=
  let pars := pars_of (currentCourse w) in
  Scorecard (findIndex (name p) sorted + 1) (name p)
    (concat (imap (current_row pars (currentHole w)) (scores p)))
    (played_loop (Z.to_nat (floor (currentHole w) + 1)) 0 (currentHole w) pars
       (scores p) (Some 0))
    (total p) (getParDifferential w p).

(** function showScorecards(): the cards it writes, one per player in the
    order of entry; [None] when it shows no cards.  The loop over
    the holes leaves after currentHole + 1 rounds. *)
Definition scorecards (w : world) : option (list scorecard) :=
  match players w with
  | [] => None
  | _ =>
      if negb (isValidCourse (currentCourse w)) then None
      else Some (map (modal_scorecard w (sorted_players (players w))) (players w))
  end.

End Panel.

(** ** The session history and the listeners *)

Module Browser.
Import Golf Panel.

(** The address of a history entry, by its hash, as far as the script sets
    and tests it: `#hole${n}`, '#scorecards', or neither (the bare
    window.location.pathname among them). *)
Inductive address :=
  | At_hole (n : number)
  | At_scorecards
  | At_page.

(** window.location.hash === '#scorecards' *)
Definition is_scorecards (a : address) : bool :=
  match a with At_scorecards => true | _ => false end.

(** The page with its place in the session history: the world of the
    script, the address of the current entry, and the addresses of the
    entries of this page below it, the nearest first. *)
Record session := Session {
  doc : world;
  location : address;
  older : list address
}.

Definition set_doc (w : world) (s : session) : session :=
  Session w (location s) (older s).

(** history.pushState(_, '', a) and history.replaceState(_, '', a) *)
Definition pushState (a : address) (s : session) : session :=
  Session (doc s) a (location s :: older s).
Definition replaceState (a : address) (s : session) : session :=
  Session (doc s) a (older s).

(** function startGame() *)
Definition startGame (inputs : list string) (s : session) : session * option notice :=
  match inputs with
  | [] => (s, snd (Golf.startGame inputs (doc s)))
  | _ =>
      (pushState (At_hole (Int 1)) (set_doc (fst (Golf.startGame inputs (doc s))) s),
       snd (Golf.startGame inputs (doc s)))
  end.

(** function updateScore(playerIdx, value) *)
Definition updateScore (playerIdx : number) (value : string) (s : session)
    : session * option notice :=
  (set_doc (fst (Golf.updateScore playerIdx value (doc s))) s,
   snd (Golf.updateScore playerIdx value (doc s))).

(** function endGame() *)
Definition endGame (s : session) : session :=
  replaceState At_page (set_doc (Golf.endGame (doc s)) s).

(** function nextHole(): the new hole pushes its entry,
    `#hole${currentHole + 1}` after the increment. *)
Definition nextHole (s : session) : session * option notice :=
  let w := doc s in
  if existsb (fun p => is_null (item (scores p) (currentHole w))) (players w)
  then (s, Some (Alert "Enter scores for all players"))
  else if lt_int (currentHole w) (HOLES_COUNT - 1)
  then (pushState (At_hole (incr (incr (currentHole w))))
          (set_doc (fst (Golf.nextHole w)) s), None)
  else (endGame s, None).

(** function goBackToSetup() *)
Definition goBackToSetup (s : session) : session :=
  replaceState At_page (set_doc (Golf.goBackToSetup (doc s)) s).

(** The popstate listener, run when the browser has moved to the entry. *)
Definition popstate (s : session) : session :=
  let w := doc s in
  if scorecardModal_active (page w) then set_doc (Golf.popstate w) s
  else if gameStarted w then
    if is_int (currentHole w) 0 then goBackToSetup s
    else set_doc (Golf.popstate w) s
  else s.

(** history.back(): the browser moves to the entry below and runs the
    listener, once the function that asked for it has returned; the callers
    do nothing after the call.  [None] when no entry of this page is below:
    the browser leaves the page or stays put. *)
Definition back (s : session) : option session :=
  match older s with
  | [] => None
  | a :: rest => Some (popstate (Session (doc s) a rest))
  end.

(** function previousHole() *)
Definition previousHole (s : session) : option session :=
  if gt_int (currentHole (doc s)) 0 then back s else Some s.

(** function showScorecards() *)
Definition showScorecards (s : session) : session :=
  match players (doc s) with
  | [] => s
  | _ =>
      if negb (isValidCourse (currentCourse (doc s))) then s
      else pushState At_scorecards (set_doc (Golf.showScorecards (doc s)) s)
  end.

(** function hideScorecards(): the modal loses its flag first, then the
    address is tested. *)
Definition hideScorecards (s : session) : option session :=
  let w := doc s in
  let closed :=
    set_doc (set_page (View (playerSetup_hidden (page w)) (holePlay_active (page w))
                         (summarySection_active (page w)) false) w) s in
  if is_scorecards (location s) then back closed else Some closed.

(** function loadState(): the address is written from the hole that has
    passed the check, which renderHole then leaves as it is. *)
Definition loadState (text_of : json -> option string) (s : session)
    : session * bool :=
  let '(w, ok) := Golf.loadState text_of (doc s) in
  if ok then (replaceState (At_hole (incr (currentHole w))) (set_doc w s), true)
  else (set_doc w s, false).

(** The keys the keydown listener tells apart. *)
Inductive key :=
  | ArrowLeft
  | ArrowRight
  | Key_s
  | Key_S
  | Escape
  | Other_key.

(** The keydown listener *)
Definition keydown (k : key) (s : session) : option (session * option notice) :=
  if negb (gameStarted (doc s)) then Some (s, None)
  else
    match k with
    | ArrowLeft => option_map (fun s' => (s', None)) (previousHole s)
    | ArrowRight =>
        if allScoresEntered (doc s) then Some (nextHole s) else Some (s, None)
    | Key_s | Key_S => Some (showScorecards s, None)
    | Escape => option_map (fun s' => (s', None)) (hideScorecards s)
    | Other_key => Some (s, None)
    end.

(** A click on a button of the bar *)
Definition click (h : handler) (s : session) : option (session * option notice) :=
  match h with
  | Call_goBackToSetup => Some (goBackToSetup s, None)
  | Call_previousHole => option_map (fun s' => (s', None)) (previousHole s)
  | Call_showScorecards => Some (showScorecards s, None)
  | Call_nextHole => Some (nextHole s)
  end.

(** The entries the holes 1 to h have pushed, the nearest first. *)
Definition trail (h : nat) : list address :=
  map (fun k => At_hole (Int (Z.of_nat k))) (rev (seq 1 h)).

(** A round played from startGame, the score cards closed, by recording
    scores and going to the next and the previous hole. *)
Inductive played : session -> Prop :=
  | played_start inputs s :
      inputs <> [] -> scorecardModal_active (page (doc s)) = false ->
      played (fst (startGame inputs s))
  | played_update idx value s :
      played s -> played (fst (updateScore idx value s))
  | played_next s :
      played s -> played (fst (nextHole s))
  | played_previous s s' :
      played s -> previousHole s = Some s' -> played s'.

(** The address and the entries below it show the hole of the round. *)
Definition in_step (s : session) : Prop :=
  exists h : nat,
    currentHole (doc s) = Int (Z.of_nat h) /\ (h <= 17)%nat
    /\ location s = At_hole (Int (Z.of_nat h + 1))
    /\ exists base, older s = app (trail h) base.

(** Every player has a score at every hole before the current one. *)
Definition caught_up (w : world) : Prop :=
  forall p i, In p (players w) -> 0 <= i < floor (currentHole w) ->
    exists n, item (scores p) (Int i) = Strokes n.

(** What a round played from startGame keeps up. *)
Definition steady (s : session) : Prop :=
  proper (doc s)
  /\ players (doc s) <> []
  /\ Forall (fun p => name_ok (name p)) (players (doc s))
  /\ isValidCourse (currentCourse (doc s)) = true
  /\ scorecardModal_active (page (doc s)) = false
  /\ caught_up (doc s)
  /\ (exists h, currentHole (doc s) = Int h)
  /\ (gameStarted (doc s) = true ->
        in_step s
        /\ storage (doc s) = Some (Document (snapshot (doc s)))
        /\ playerSetup_hidden (page (doc s)) = true
        /\ holePlay_active (page (doc s)) = true).

End Browser.

(** ** Sample rounds *)

Module Samples.
Import Golf.

Definition unscored : list score := replicate 18 Null.

Definition setup_page : view := View false false false false.
Definition play_page : view := View true true false false.

(** A fresh page: nothing started, nothing stored. *)
Definition fresh : world := World "dragon" [] (Int 0) false setup_page None.

(** Amy holed out in one on the first hole (par 2), Bo needed four. *)
Definition amy : player := Player "Amy" (Strokes 1 :: replicate 17 Null) 1.
Definition bo : player := Player "Bo" (Strokes 4 :: replicate 17 Null) 4.
Definition first_hole : world :=
  World "dragon" [amy; bo] (Int 0) true play_page None.

(** One player on the second hole after 1 and 3 strokes. *)
Definition cid : player :=
  Player "Cid" (Strokes 1 :: Strokes 3 :: replicate 16 Null) 4.
Definition second_hole : world :=
  World "knight" [cid] (Int 1) true play_page None.

(** Three players in the order they were entered: A and B with 5 strokes,
    C with 3. *)
Definition player_A : player := Player "A" (Strokes 5 :: replicate 17 Null) 5.
Definition player_B : player := Player "B" (Strokes 5 :: replicate 17 Null) 5.
Definition player_C : player := Player "C" (Strokes 3 :: replicate 17 Null) 3.



(** A stored snapshot whose hole number is 2.5. *)
Definition half_hole : json :=
  JObj [("course", JStr "dragon");
        ("hole", JNum (Frac 2));
        ("players", JArr [JObj [("name", JStr "Amy");
                               ("scores", JArr (replicate 18 JNull))]]);
        ("gameStarted", JBool true)].

(** The same snapshot on hole 4 (shown as hole 5), with 15 strokes stored in
    the first slot and a total that is not the sum. *)
Definition score_15 : json :=
  JObj [("course", JStr "dragon");
        ("hole", JNum (Int 4));
        ("players", JArr [JObj [("name", JStr "Amy");
                               ("scores", JArr (JNum (Int 15) :: JNum (Int 3)
                                                  :: replicate 16 JNull));
                               ("total", JNum (Int 99))]]);
        ("gameStarted", JBool true)].

(** The text of a snapshot value that is not a string, for the samples, none
    of which has one where a text is read. *)
Definition no_text (v : json) : option string := Some "".

(** The page before a round, at an address without hash, no entry of it
    below. *)
Definition first_page : Browser.session :=
  Browser.Session fresh Browser.At_page [].

(** Amy and Bo start a round. *)
Definition round_start : Browser.session :=
  fst (Browser.startGame ["Amy"; "Bo"] first_page).

(** Both take three strokes on the hole, and the round moves on. *)
Definition both_score (s : Browser.session) : Browser.session :=
  fst (Browser.updateScore (Int 1) "3" (fst (Browser.updateScore (Int 0) "3" s))).
Definition one_hole (s : Browser.session) : Browser.session :=
  fst (Browser.nextHole (both_score s)).

(** The third hole, nothing scored on it yet, and the last hole, scored and
    not yet finished. *)
Definition third_hole : Browser.session := one_hole (one_hole round_start).
Definition last_hole : Browser.session :=
  both_score (Nat.iter 17 one_hole round_start).

(** The inputs after a name is written into the first and one is added. *)
Definition three_inputs : list string :=
  fst (Setup.addPlayer (Setup.type_name 0 "Amy" Setup.resetGame_inputs)).

(** Two parts of a text of hole stories. *)
Definition LF : ascii := ascii_of_nat 10.
Definition stories_head : string :=
  "junk=1" ++ String LF ("[dragon]" ++ String LF " 1 = The gate = open ").
Definition stories_tail : string :=
  "=x" ++ String LF ("2=two" ++ String LF ("[knight]" ++ String LF "1=k1")).

(** A, B and C on the first hole. *)
Definition three_players : world :=
  World "dragon" [player_A; player_B; player_C] (Int 0) true play_page None.

End Samples.

(** * Properties *)

Module Facts.
Import Golf.

(** ** Numbers and texts *)

Lemma show_negative (z : Z) : z < 0 -> show z = "-" ++ show (- z).
Proof.
  destruct z as [|p|p]; intros H; try lia.
  reflexivity.
Qed.

(** ** Score arrays *)

Lemma index_inj x y i : index x = Some i -> index y = Some i -> x = y.
Proof.
  destruct x as [zx|], y as [zy|]; cbn; try discriminate.
  destruct (Z.leb_spec 0 zx), (Z.leb_spec 0 zy); try discriminate.
  intros [= Hx] [= Hy]. f_equal. lia.
Qed.

Lemma item_assign_eq a x v i : index x = Some i -> item (assign a x v) x = v.
Proof.
  intros Hx. unfold item, assign. rewrite Hx.
  destruct (Nat.ltb_spec i (length a)) as [Hlt|Hge].
  - now rewrite list_lookup_insert_eq.
  - rewrite lookup_app_r by lia.
    rewrite lookup_app_r by (rewrite length_replicate; lia).
    rewrite length_replicate, Nat.sub_diag. reflexivity.
Qed.

Lemma item_assign_ne a x y v : x <> y -> item (assign a x v) y = item a y.
Proof.
  intros Hne. unfold item, assign.
  destruct (index y) as [j|] eqn:Hy; [|reflexivity].
  destruct (index x) as [i|] eqn:Hx; [|reflexivity].
  assert (Hij : i <> j) by (intros ->; apply Hne; eauto using index_inj).
  destruct (Nat.ltb_spec i (length a)) as [Hlt|Hge].
  - now rewrite list_lookup_insert_ne.
  - destruct (Nat.lt_ge_cases j (length a)) as [Hj|Hj].
    + now rewrite lookup_app_l.
    + rewrite (lookup_ge_None_2 a j) by lia.
      rewrite lookup_app_r by lia.
      destruct (Nat.lt_ge_cases (j - length a) (i - length a)) as [Hg|Hg].
      * rewrite lookup_app_l by (rewrite length_replicate; lia).
        now rewrite lookup_replicate_2.
      * rewrite lookup_app_r by (rewrite length_replicate; lia).
        rewrite length_replicate.
        rewrite lookup_ge_None_2; [reflexivity|]. cbn [length]. lia.
Qed.

Lemma assign_in_range a x v i :
  index x = Some i -> (i < length a)%nat -> assign a x v = <[i:=v]> a.
Proof.
  intros Hx Hi. unfold assign. rewrite Hx.
  destruct (Nat.ltb_spec i (length a)); [reflexivity | lia].
Qed.

Lemma fold_add_score a : forall acc,
  fold_left add_score (List.filter kept a) acc = acc + strokes_sum a.
Proof.
  induction a as [|[| |n] a IH]; intros acc; cbn [List.filter kept strokes_sum].
  - cbn. lia.
  - apply IH.
  - apply IH.
  - cbn [fold_left add_score]. rewrite IH. lia.
Qed.

(** The total the script computes is the sum of the strokes entered. *)
Lemma sum_scores_strokes a : sum_scores a = strokes_sum a.
Proof. unfold sum_scores. now rewrite fold_add_score. Qed.

Lemma lookup_map {A B} (f : A -> B) (l : list A) i :
  map f l !! i = f <$> l !! i.
Proof.
  revert i. induction l as [|x l IH]; intros [|i]; cbn; try reflexivity.
  apply IH.
Qed.

Lemma alter_at {A} (f : A -> A) (l : list A) i x :
  l !! i = Some x -> alter f i l = <[i := f x]> l.
Proof.
  intros Hx. apply list_eq. intros j.
  destruct (decide (i = j)) as [<-|Hne].
  - rewrite list_lookup_alter_eq, Hx.
    rewrite list_lookup_insert_eq; [reflexivity|].
    apply lookup_lt_is_Some. eauto.
  - now rewrite list_lookup_alter_ne, list_lookup_insert_ne.
Qed.

(** ** The course tables *)

Lemma isValidCourse_inv course :
  isValidCourse course = true -> course = "dragon" \/ course = "knight".
Proof.
  unfold isValidCourse, hasOwnProperty, coursePars.
  destruct (decide (course = "dragon")) as [->|Hd]; [now left|].
  destruct (decide (course = "knight")) as [->|Hk]; [now right|].
  rewrite !andb_true_iff. intros [_ H].
  rewrite lookup_insert_ne, lookup_insert_ne, lookup_empty in H by congruence.
  discriminate.
Qed.

(** The recognized courses are the two of the tables. *)
Lemma isValidCourse_iff course :
  isValidCourse course = true <-> course = "dragon" \/ course = "knight".
Proof.
  split; [apply isValidCourse_inv|]. intros [-> | ->]; reflexivity.
Qed.

Lemma pars_of_valid course :
  isValidCourse course = true -> pars_of course = the_pars.
Proof.
  intros H. destruct (isValidCourse_inv _ H) as [-> | ->]; reflexivity.
Qed.

(** ** Classification of a score *)

Lemma category_functional strokes par c1 c2 :
  category strokes par c1 -> category strokes par c2 -> c1 = c2.
Proof.
  intros H1 H2; inversion H1; subst; inversion H2; subst;
    try reflexivity; lia.
Qed.

Lemma getScoreDescription_category strokes par :
  category strokes par (class (getScoreDescription strokes par)).
Proof.
  unfold getScoreDescription.
  destruct (Z.eqb_spec strokes 1) as [->|Hne]; [constructor|].
  destruct (Z.leb_spec (strokes - par) (-2)); [now constructor|].
  repeat (match goal with
          | |- context [?a =? ?b] => destruct (Z.eqb_spec a b)
          end; [now constructor|]).
  apply cat_over_par; [assumption | lia].
Qed.

(** C3.  For strokes in 1..11 and a par of 2, 3 or 4, getScoreDescription
    gives exactly one category, the one the ordered rules pick: a single
    stroke is a hole in one whatever the par (also on a par 3, where the eagle
    rule would apply too), then eagle, birdie, par, bogey, double bogey, and
    the over-par label from three over.  The v1.1 function gives the same
    category. *)
Theorem classify_one_category strokes par :
  1 <= strokes <= 11 -> par = 2 \/ par = 3 \/ par = 4 ->
  let c := class (getScoreDescription strokes par) in
  category strokes par c
  /\ (forall c', category strokes par c' -> c' = c)
  /\ (strokes = 1 -> c = "hole-in-one")
  /\ (strokes <> 1 -> strokes - par <= -2 -> c = "eagle")
  /\ (strokes <> 1 -> strokes - par = -1 -> c = "birdie")
  /\ (strokes <> 1 -> strokes - par = 0 -> c = "par")
  /\ (strokes <> 1 -> strokes - par = 1 -> c = "bogey")
  /\ (strokes <> 1 -> strokes - par = 2 -> c = "double-bogey")
  /\ (strokes <> 1 -> strokes - par >= 3 -> c = "high-score")
  /\ class (V1.getScoreDescription strokes par) = c.
Proof.
  intros Hs Hp c.
  pose proof (getScoreDescription_category strokes par) as Hc. fold c in Hc.
  assert (Huniq : forall c', category strokes par c' -> c' = c)
    by (intros c' Hc'; exact (category_functional _ _ _ _ Hc' Hc)).
  repeat split; try assumption;
    try (intros; symmetry; apply Huniq; subst; constructor; (assumption || lia)).
  subst c. unfold V1.getScoreDescription, getScoreDescription.
  repeat (match goal with
          | |- context [?a =? ?b] => destruct (Z.eqb_spec a b)
          | |- context [?a <=? ?b] => destruct (Z.leb_spec a b)
          end; try reflexivity; try lia).
Qed.

(** A single stroke on a par 3: the eagle rule would apply, the hole in one
    wins. *)
Lemma classify_one_category_witness :
  1 - 3 <= -2 /\ class (getScoreDescription 1 3) = "hole-in-one".
Proof.
  split; [lia|].
  destruct (classify_one_category 1 3) as (_ & _ & H & _); [lia | auto |].
  apply H; reflexivity.
Defined.

(** ** The running par differential *)

Section ParLoop.
Variables (pars : list Z) (a : list score) (h : nat).

(** The loop from hole i on, with k holes left before it stops and at least
    as much fuel, adds the par and the count of the played ones among
    them. *)
Lemma par_loop_from (k : nat) : forall (i fuel : nat) (acc : Z * Z),
  (i + k = Nat.min (S h) (length pars))%nat -> (k <= fuel)%nat ->
  par_loop fuel (Z.of_nat i) (Int (Z.of_nat h)) pars a acc
  = (fst acc + par_sum pars (List.filter (played a) (seq i k)),
     snd acc + Z.of_nat (length (List.filter (played a) (seq i k)))).
Proof.
  induction k as [|k IH]; intros i fuel [pt n] Hik Hfuel.
  - cbn [seq List.filter length fst snd]. unfold par_sum. cbn [map fold_right].
    rewrite !Z.add_0_r.
    destruct fuel as [|fuel]; [reflexivity|].
    cbn [par_loop]. unfold int_le; simpl floor.
    destruct (Z.leb_spec (Z.of_nat i) (Z.of_nat h));
      destruct (Z.ltb_spec (Z.of_nat i) (Z.of_nat (length pars)));
      cbn [andb]; try reflexivity; lia.
  - destruct fuel as [|fuel]; [lia|].
    cbn [par_loop]. unfold int_le; simpl floor.
    destruct (Z.leb_spec (Z.of_nat i) (Z.of_nat h)); [|lia].
    destruct (Z.ltb_spec (Z.of_nat i) (Z.of_nat (length pars))); [|lia].
    cbn [andb].
    replace (Z.of_nat i + 1) with (Z.of_nat (S i)) by lia.
    rewrite IH by lia.
    cbn [seq List.filter].
    rewrite Nat2Z.id. unfold par_sum.
    assert (Hp : played a i = negb (is_null (item a (Int (Z.of_nat i)))))
      by reflexivity.
    rewrite Hp.
    destruct (is_null (item a (Int (Z.of_nat i))));
      cbn [negb fst snd map fold_right length]; f_equal; lia.
Qed.
End ParLoop.

Lemma par_loop_total (pars : list Z) (a : list score) (h : nat) :
  (h < length pars)%nat ->
  par_loop (length pars) 0 (Int (Z.of_nat h)) pars a (0, 0)
  = (running_par pars a h, Z.of_nat (length (played_holes a h))).
Proof.
  intros Hh.
  change 0 with (Z.of_nat 0) at 1.
  rewrite (par_loop_from pars a h (S h) 0 (length pars) (0, 0)) by lia.
  reflexivity.
Qed.

(** getParDifferential on a known course, through hole h: the three cases. *)
Lemma getParDifferential_cases w p h :
  isValidCourse (currentCourse w) = true -> currentHole w = Int h ->
  0 <= h <= 17 ->
  let par := running_par (pars_of (currentCourse w)) (scores p) (Z.to_nat h) in
  getParDifferential w p
  = match played_holes (scores p) (Z.to_nat h) with
    | [] => "E"
    | _ => if total p =? par then "E"
           else if par <? total p then "+" ++ show (total p - par)
           else "-" ++ show (par - total p)
    end.
Proof.
  intros Hc Hh Hr par. unfold getParDifferential.
  rewrite Hc, Hh. cbn [negb].
  pose proof (pars_of_valid _ Hc) as Hp. subst par. rewrite Hp.
  replace (Int h) with (Int (Z.of_nat (Z.to_nat h))) by (f_equal; lia).
  rewrite par_loop_total by (simpl; lia).
  destruct (played_holes (scores p) (Z.to_nat h)) as [|i l] eqn:Hl; [reflexivity|].
  replace (Z.of_nat (length (i :: l)) =? 0) with false
    by (symmetry; apply Z.eqb_neq; simpl length; lia).
  set (rp := running_par the_pars (scores p) (Z.to_nat h)).
  replace (total p - rp =? 0) with (total p =? rp)
    by (destruct (Z.eqb_spec (total p) rp), (Z.eqb_spec (total p - rp) 0); lia || reflexivity).
  destruct (Z.eqb_spec (total p) rp); [reflexivity|].
  replace (0 <? total p - rp) with (rp <? total p)
    by (destruct (Z.ltb_spec rp (total p)), (Z.ltb_spec 0 (total p - rp)); lia || reflexivity).
  destruct (Z.ltb_spec rp (total p)); [reflexivity|].
  rewrite show_negative by lia. f_equal. f_equal. lia.
Qed.

Lemma V1_par_loop_same pars a hole :
  length pars = 18%nat -> forall fuel i acc,
  V1.par_loop fuel i hole pars a acc = par_loop fuel i hole pars a acc.
Proof.
  intros Hlen. induction fuel as [|fuel IH]; intros i acc; [reflexivity|].
  cbn [V1.par_loop par_loop]. rewrite Hlen, IH.
  replace (i <=? 17) with (i <? Z.of_nat 18); [reflexivity|].
  destruct (Z.ltb_spec i (Z.of_nat 18)), (Z.leb_spec i 17); lia || reflexivity.
Qed.

(** getParTotal of v1.1 gives what getParDifferential gives. *)
Lemma V1_getParTotal_same w p :
  isValidCourse (currentCourse w) = true ->
  V1.getParTotal w p = getParDifferential w p.
Proof.
  intros Hc. unfold V1.getParTotal, getParDifferential.
  rewrite Hc, (pars_of_valid _ Hc). cbn [negb].
  now rewrite V1_par_loop_same.
Qed.

(** C4.  On a known course and through hole h in 0..17, getParDifferential
    compares the player's total with the par added up over the holes up to h
    whose slot is not null (a null slot, also the current one, adds nothing
    and raises nothing): the result is "E" exactly when no such hole is scored
    or the total equals that sum, "+N" when the total is N above it and "-N"
    when it is N below.  getParTotal of v1.1 returns the same text. *)
Theorem parDifferential_through_hole w p h :
  isValidCourse (currentCourse w) = true -> currentHole w = Int h ->
  0 <= h <= 17 ->
  let holes := played_holes (scores p) (Z.to_nat h) in
  let par := running_par (pars_of (currentCourse w)) (scores p) (Z.to_nat h) in
  (getParDifferential w p = "E" <-> holes = [] \/ total p = par)
  /\ (forall N, holes <> [] -> 0 < N -> total p = par + N ->
       getParDifferential w p = "+" ++ show N)
  /\ (forall N, holes <> [] -> 0 < N -> total p = par - N ->
       getParDifferential w p = "-" ++ show N)
  /\ (forall i, In i holes <->
       (i <= Z.to_nat h)%nat /\ item (scores p) (Int (Z.of_nat i)) <> Null)
  /\ V1.getParTotal w p = getParDifferential w p.
Proof.
  intros Hc Hh Hr holes par.
  pose proof (getParDifferential_cases w p h Hc Hh Hr) as E.
  cbv zeta in E. fold holes par in E.
  split; [split|split; [|split; [|split; [|now apply V1_getParTotal_same]]]].
  - rewrite E. destruct holes as [|i l]; [now left|].
    destruct (Z.eqb_spec (total p) par); [now right|].
    destruct (par <? total p); discriminate.
  - rewrite E. intros [-> | Ht]; [reflexivity|].
    destruct holes; [reflexivity|].
    destruct (Z.eqb_spec (total p) par); [reflexivity | contradiction].
  - intros N Hpl HN Ht. rewrite E. destruct holes; [contradiction|].
    destruct (Z.eqb_spec (total p) par); [lia|].
    destruct (Z.ltb_spec par (total p)); [|lia].
    do 2 f_equal. lia.
  - intros N Hpl HN Ht. rewrite E. destruct holes; [contradiction|].
    destruct (Z.eqb_spec (total p) par); [lia|].
    destruct (Z.ltb_spec par (total p)); [lia|].
    do 2 f_equal. lia.
  - intros i. subst holes. unfold played_holes, played. rewrite filter_In, in_seq.
    destruct (item (scores p) (Int (Z.of_nat i))); cbn [is_null negb];
      intuition (congruence || lia).
Qed.

(** One and three strokes on the pars 2 and 3: one under. *)
Lemma parDifferential_through_hole_witness :
  getParDifferential Samples.second_hole Samples.cid = "-1".
Proof.
  destruct (parDifferential_through_hole Samples.second_hole Samples.cid 1)
    as (_ & _ & H & _); [reflexivity | reflexivity | lia |].
  apply (H 1); [discriminate | lia | reflexivity].
Defined.

(** The scenarios of the specification: nothing scored yet reads "E"; Amy's
    hole in one on the par 2 is classified as such and puts her one under;
    Bo's four is a double bogey, two over. *)
Lemma scoring_scenarios :
  getParDifferential Samples.first_hole (Player "Eve" Samples.unscored 0) = "E"
  /\ class (getScoreDescription 1 2) = "hole-in-one"
  /\ total Samples.amy = 1
  /\ getParDifferential Samples.first_hole Samples.amy = "-1"
  /\ class (getScoreDescription 4 2) = "double-bogey"
  /\ getParDifferential Samples.first_hole Samples.bo = "+2"
  /\ getParDifferential Samples.second_hole
       (Player "Dee" (Strokes 2 :: Strokes 3 :: replicate 16 Null) 5) = "E".
Proof. repeat split; reflexivity. Qed.

(** ** The ranking *)

Section SortByKey.
Context {A : Type} (key : A -> Z).

Lemma insert_sorted_perm x l :
  Permutation (insert_sorted (fun a b => key a - key b) x l) (x :: l).
Proof.
  induction l as [|y l IH]; cbn [insert_sorted]; [reflexivity|].
  destruct (0 <? key x - key y); [|reflexivity].
  rewrite IH. apply perm_swap.
Qed.

Lemma sort_perm l : Permutation (sort (fun a b => key a - key b) l) l.
Proof.
  induction l as [|x l IH]; cbn [sort]; [reflexivity|].
  rewrite insert_sorted_perm. now constructor.
Qed.

Lemma insert_sorted_ordered x l :
  StronglySorted (fun a b => key a <= key b) l ->
  StronglySorted (fun a b => key a <= key b)
    (insert_sorted (fun a b => key a - key b) x l).
Proof.
  induction 1 as [|y l Hl IH Hy]; cbn [insert_sorted].
  - repeat constructor.
  - destruct (Z.ltb_spec 0 (key x - key y)) as [Hlt|Hge].
    + constructor; [assumption|].
      apply (Permutation_Forall (Permutation_sym (insert_sorted_perm x l))).
      constructor; [lia | assumption].
    + constructor; [now constructor|].
      constructor; [lia|].
      eapply List.Forall_impl; [|exact Hy].
      intros a Ha. cbv beta in Ha. lia.
Qed.

Lemma sort_ordered l :
  StronglySorted (fun a b => key a <= key b) (sort (fun a b => key a - key b) l).
Proof.
  induction l as [|x l IH]; cbn [sort]; [constructor|].
  now apply insert_sorted_ordered.
Qed.

(** An inserted element goes past smaller keys only, so among the elements
    of any one key it stays in front. *)
Lemma insert_sorted_stable t x l :
  List.filter (fun a => key a =? t) (insert_sorted (fun a b => key a - key b) x l)
  = List.filter (fun a => key a =? t) (x :: l).
Proof.
  induction l as [|y l IH]; cbn [insert_sorted]; [reflexivity|].
  destruct (Z.ltb_spec 0 (key x - key y)) as [Hlt|Hge]; [|reflexivity].
  cbn [List.filter] in *. rewrite IH.
  destruct (Z.eqb_spec (key x) t), (Z.eqb_spec (key y) t); try reflexivity.
  lia.
Qed.

Lemma sort_stable t l :
  List.filter (fun a => key a =? t) (sort (fun a b => key a - key b) l)
  = List.filter (fun a => key a =? t) l.
Proof.
  induction l as [|x l IH]; cbn [sort]; [reflexivity|].
  rewrite insert_sorted_stable. cbn [List.filter]. now rewrite IH.
Qed.

Lemma filter_key_head t (x : A) l :
  key x = t -> List.filter (fun a => key a =? t) (x :: l)
               = x :: List.filter (fun a => key a =? t) l.
Proof. intros <-. cbn [List.filter]. now rewrite Z.eqb_refl. Qed.

(** Two ascending lists that agree on the elements of every key, in order,
    are the same list: whatever stable sort the engine runs returns what
    [sort] returns. *)
Lemma stable_sorted_unique l1 : forall l2,
  StronglySorted (fun a b => key a <= key b) l1 ->
  StronglySorted (fun a b => key a <= key b) l2 ->
  (forall t, List.filter (fun a => key a =? t) l1
             = List.filter (fun a => key a =? t) l2) ->
  l1 = l2.
Proof.
  induction l1 as [|x l1 IH]; intros l2 S1 S2 E.
  - destruct l2 as [|y l2]; [reflexivity|].
    specialize (E (key y)). rewrite filter_key_head in E by reflexivity.
    discriminate.
  - destruct l2 as [|y l2].
    { specialize (E (key x)). rewrite filter_key_head in E by reflexivity.
      discriminate. }
    apply StronglySorted_inv in S1 as [S1 H1].
    apply StronglySorted_inv in S2 as [S2 H2].
    assert (Hk : key y = key x).
    { destruct (Z.lt_trichotomy (key y) (key x)) as [Hlt | [Heq | Hgt]];
        [exfalso | exact Heq | exfalso].
      - pose proof (E (key y)) as Ey.
        rewrite (filter_key_head (key y) y) in Ey by reflexivity.
        assert (Hy : In y (List.filter (fun a => key a =? key y) (x :: l1)))
          by (rewrite Ey; now left).
        apply filter_In in Hy. destruct Hy as [[-> | Hy] _]; [lia|].
        rewrite List.Forall_forall in H1. specialize (H1 y Hy). cbv beta in H1. lia.
      - pose proof (E (key x)) as Ex.
        rewrite (filter_key_head (key x) x) in Ex by reflexivity.
        assert (Hx : In x (List.filter (fun a => key a =? key x) (y :: l2)))
          by (rewrite <- Ex; now left).
        apply filter_In in Hx. destruct Hx as [[-> | Hx] _]; [lia|].
        rewrite List.Forall_forall in H2. specialize (H2 x Hx). cbv beta in H2. lia. }
    assert (Hxy : x = y).
    { pose proof (E (key x)) as Ex.
      rewrite (filter_key_head (key x) x), (filter_key_head (key x) y) in Ex
        by (reflexivity || assumption).
      now injection Ex. }
    subst y. f_equal. apply IH; trivial.
    intros t. specialize (E t). cbn [List.filter] in E.
    destruct (key x =? t); [now injection E | exact E].
Qed.

Lemma sort_is_the_stable_sort l l' :
  StronglySorted (fun a b => key a <= key b) l' ->
  (forall t, List.filter (fun a => key a =? t) l'
             = List.filter (fun a => key a =? t) l) ->
  l' = sort (fun a b => key a - key b) l.
Proof.
  intros S E. apply stable_sorted_unique; [exact S | apply sort_ordered|].
  intros t. now rewrite E, sort_stable.
Qed.

End SortByKey.

(** C5.  The leaderboard order is the player list sorted by ascending total,
    and the sort is stable: the players of any one total come out in the order
    they were entered.  A(5), B(5), C(3) entered in this order rank
    C, A, B. *)
Theorem rank_stable_ascending :
  (forall ps : list player,
     Permutation (sorted_players ps) ps
     /\ StronglySorted (fun a b => total a <= total b) (sorted_players ps)
     /\ forall t, List.filter (fun p => total p =? t) (sorted_players ps)
                  = List.filter (fun p => total p =? t) ps)
  /\ sorted_players [Samples.player_A; Samples.player_B; Samples.player_C]
     = [Samples.player_C; Samples.player_A; Samples.player_B].
Proof.
  split; [|reflexivity].
  intros ps. unfold sorted_players. split; [|split].
  - apply sort_perm.
  - apply (sort_ordered total).
  - intros t. apply (sort_stable total).
Qed.

(** ** Hole progression *)

Lemma renderHole_in_range w h :
  isValidCourse (currentCourse w) = true -> currentHole w = Int h ->
  0 <= h <= 17 -> renderHole w = w.
Proof.
  intros Hc Hh Hr. unfold renderHole. rewrite Hc, Hh.
  unfold lt_int, ge_int, HOLES_COUNT. cbn [floor].
  destruct (Z.ltb_spec h 0); [lia|].
  destruct (Z.leb_spec 18 h); [lia|]. reflexivity.
Qed.

Lemma some_unscored w :
  existsb (fun p => is_null (item (scores p) (currentHole w))) (players w) = true
  <-> exists p, In p (players w) /\ item (scores p) (currentHole w) = Null.
Proof.
  rewrite existsb_exists. split; intros (p & Hin & Hp); exists p; split; trivial.
  - destruct (item (scores p) (currentHole w)); (reflexivity || discriminate).
  - now rewrite Hp.
Qed.

Lemma loadState_nothing_stored text_of w :
  storage w = None -> loadState text_of w = (w, false).
Proof. intros H. unfold loadState. now rewrite H. Qed.

(** What saveState writes is the round, field by field. *)
Lemma score_json_saved s : slot_saved s (score_json s).
Proof. destruct s; constructor. Qed.

Lemma player_json_saved p : player_saved p (player_json p).
Proof.
  split; [reflexivity|]. exists (map score_json (scores p)).
  split; [reflexivity|].
  induction (scores p) as [|x a IH]; cbn [map]; constructor;
    [apply score_json_saved | exact IH].
Qed.

Lemma players_json_saved ps : Forall2 player_saved ps (map player_json ps).
Proof.
  induction ps as [|p ps IH]; cbn [map]; constructor;
    [apply player_json_saved | exact IH].
Qed.

Lemma snapshot_saved w : round_saved w (snapshot w).
Proof.
  repeat (split; [reflexivity|]). exists (map player_json (players w)).
  split; [reflexivity | apply players_json_saved].
Qed.

(** C1.  In Playing(h), nextHole refuses with the alert and changes nothing
    as long as some player's slot h is null.  With every slot h filled it
    moves to Playing(h+1) and saves when h < 17: the stored document holds the
    course, the new hole number, the started flag and every player with the
    name and the slots.  On the last hole it ends the round: the summary is
    shown and the storage entry is removed, so that a reload finds nothing to
    resume. *)
Theorem advance_rule w h :
  Playing h w ->
  ((exists p, In p (players w) /\ item (scores p) (Int h) = Null) ->
   nextHole w = (w, Some (Alert "Enter scores for all players")))
  /\ ((forall p, In p (players w) -> item (scores p) (Int h) <> Null) ->
      let w' := fst (nextHole w) in
      snd (nextHole w) = None
      /\ players w' = players w
      /\ currentCourse w' = currentCourse w
      /\ (h < 17 ->
          Playing (h + 1) w' /\ page w' = page w
          /\ exists doc stored,
               storage w' = Some (Document doc)
               /\ prop doc "course" = Some (JStr (currentCourse w))
               /\ prop doc "hole" = Some (JNum (Int (h + 1)))
               /\ prop doc "gameStarted" = Some (JBool true)
               /\ prop doc "players" = Some (JArr stored)
               /\ Forall2 player_saved (players w) stored)
      /\ (h = 17 ->
          Summary w' /\ storage w' = None
          /\ forall text_of, loadState text_of w' = (w', false))).
Proof.
  intros (Hg & Hh & Hr & Hc). split.
  - intros Hex. unfold nextHole. rewrite <- Hh in Hex.
    apply some_unscored in Hex. now rewrite Hex.
  - intros Hall. unfold nextHole.
    destruct (existsb _ (players w)) eqn:Hex.
    { apply some_unscored in Hex. destruct Hex as (p & Hin & Hp).
      rewrite Hh in Hp. now destruct (Hall p Hin). }
    rewrite Hh. unfold lt_int, HOLES_COUNT. cbn [floor incr].
    destruct (Z.ltb_spec h (18 - 1)) as [Hlt|Hge].
    + rewrite (renderHole_in_range _ (h + 1)) by (trivial; lia).
      cbn [fst snd]. do 3 (split; [reflexivity|]). split; [|lia]. intros _.
      split; [repeat split; trivial; lia|]. split; [reflexivity|].
      exists (snapshot (set_hole (Int (h + 1)) w)), (map player_json (players w)).
      split; [reflexivity|]. split; [reflexivity|]. split; [reflexivity|].
      split; [cbn; now rewrite Hg|]. split; [reflexivity|].
      apply players_json_saved.
    + cbn [fst snd]. split; [reflexivity|]. split; [reflexivity|].
      split; [reflexivity|]. split; [lia|]. intros _.
      split; [now repeat split|]. split; [reflexivity|].
      intros text_of. now apply loadState_nothing_stored.
Qed.

(** Amy and Bo have both scored on the first hole: on to the second. *)
Lemma advance_rule_witness :
  Playing 0 Samples.first_hole /\ Playing 1 (fst (nextHole Samples.first_hole)).
Proof.
  assert (H0 : Playing 0 Samples.first_hole)
    by (repeat split; (reflexivity || lia)).
  split; [exact H0|].
  destruct (advance_rule Samples.first_hole 0 H0) as (_ & H).
  destruct H as (_ & _ & _ & H & _).
  - intros p [<- | [<- | []]]; discriminate.
  - apply H. lia.
Defined.

(** ** Recording a score *)

Lemma isValidPlayerIndex_iff w idx :
  isValidPlayerIndex w idx = true
  <-> exists i, idx = Int (Z.of_nat i) /\ (i < length (players w))%nat.
Proof.
  unfold isValidPlayerIndex, ge_int, lt_int.
  destruct idx as [z|b]; cbn [isInteger floor andb].
  - rewrite andb_true_iff, Z.leb_le, Z.ltb_lt. split.
    + intros [H0 Hlt]. exists (Z.to_nat z). split; [f_equal|]; lia.
    + intros (i & [= ->] & Hi). lia.
  - split; [discriminate|]. intros (i & Hi & _). discriminate.
Qed.

Lemma isValidScore_iff s : isValidScore (Int s) = true <-> 1 <= s <= 11.
Proof.
  unfold isValidScore, ge_int, le_int. cbn [isInteger floor andb].
  rewrite andb_true_iff, !Z.leb_le. reflexivity.
Qed.

(** C2.  In Playing(h), updateScore changes nothing when the player index is
    out of bounds or the value read is no integer from 1 to 11.  Otherwise it
    puts the strokes into slot h of that one player, makes that player's total
    the sum of the strokes in the player's slots, saves, and leaves the hole
    number, the other slots and the other players as they were.  What is
    saved is the new round, field by field: in the stored document the array
    of scores of that player holds the strokes at position h. *)
Theorem recordScore_rule w h idx value :
  Playing h w ->
  ((~ (exists i, idx = Int (Z.of_nat i) /\ (i < length (players w))%nat)
    \/ (forall s, parseInt value = Some s -> ~ 1 <= s <= 11)) ->
   fst (updateScore idx value w) = w)
  /\ (forall i p s,
        idx = Int (Z.of_nat i) -> players w !! i = Some p ->
        parseInt value = Some s -> 1 <= s <= 11 ->
        let w' := fst (updateScore idx value w) in
        let a' := assign (scores p) (Int h) (Strokes s) in
        snd (updateScore idx value w) = None
        /\ players w' = <[i := Player (name p) a' (strokes_sum a')]> (players w)
        /\ item a' (Int h) = Strokes s
        /\ (forall x, x <> Int h -> item a' x = item (scores p) x)
        /\ ((Z.to_nat h < length (scores p))%nat ->
            a' = <[Z.to_nat h := Strokes s]> (scores p))
        /\ currentHole w' = Int h
        /\ currentCourse w' = currentCourse w
        /\ gameStarted w' = gameStarted w
        /\ page w' = page w
        /\ exists doc stored v items,
             storage w' = Some (Document doc)
             /\ round_saved w' doc
             /\ prop doc "players" = Some (JArr stored)
             /\ stored !! i = Some v
             /\ prop v "scores" = Some (JArr items)
             /\ items !! Z.to_nat h = Some (JNum (Int s))).
Proof.
  intros (Hg & Hh & Hr & Hc). split.
  - intros Hbad. unfold updateScore.
    destruct (parseInt value) as [s|] eqn:Hs; [|reflexivity].
    destruct (isValidPlayerIndex w idx) eqn:Hi; [|reflexivity].
    destruct (isValidScore (Int s)) eqn:Hv; [|reflexivity].
    exfalso. destruct Hbad as [Hbad|Hbad].
    + apply Hbad. now apply isValidPlayerIndex_iff.
    + apply (Hbad s eq_refl). now apply isValidScore_iff.
  - intros i p s -> Hp Hs Hv w' a'.
    assert (Hidx : index (Int h) = Some (Z.to_nat h)).
    { unfold index. destruct (Z.leb_spec 0 h); [reflexivity | lia]. }
    assert (E : updateScore (Int (Z.of_nat i)) value w
                = (saveState (set_players
                     (<[i := Player (name p) a' (strokes_sum a')]> (players w)) w),
                   None)).
    { unfold updateScore. rewrite Hs.
      replace (isValidPlayerIndex w (Int (Z.of_nat i))) with true
        by (symmetry; apply isValidPlayerIndex_iff; exists i; split; trivial;
            apply lookup_lt_is_Some; eauto).
      replace (isValidScore (Int s)) with true
        by (symmetry; now apply isValidScore_iff).
      rewrite Hc. cbn [negb floor]. rewrite Nat2Z.id.
      rewrite (alter_at _ _ _ _ Hp). unfold record. rewrite Hh.
      fold a'. rewrite sum_scores_strokes.
      rewrite (renderHole_in_range _ h); trivial. }
    subst w'. rewrite E. cbn [fst snd].
    split; [reflexivity|]. split; [reflexivity|].
    split; [now apply (item_assign_eq _ _ _ _ Hidx)|].
    split; [intros x Hx; apply item_assign_ne; congruence|].
    split; [intros Hlen; now apply assign_in_range|].
    do 4 (split; [reflexivity || assumption|]).
    set (q := Player (name p) a' (strokes_sum a')).
    set (w1 := set_players (<[i := q]> (players w)) w).
    exists (snapshot w1), (map player_json (players w1)), (player_json q),
      (map score_json a').
    split; [reflexivity|]. split; [apply (snapshot_saved w1)|].
    split; [reflexivity|]. split.
    { rewrite lookup_map. subst w1. cbn [players set_players].
      rewrite list_lookup_insert_eq; [reflexivity|].
      apply lookup_lt_is_Some. eauto. }
    split; [reflexivity|].
    rewrite lookup_map.
    pose proof (item_assign_eq (scores p) (Int h) (Strokes s) _ Hidx) as Hit.
    fold a' in Hit. unfold item in Hit. rewrite Hidx in Hit.
    destruct (a' !! Z.to_nat h) as [x|]; [|discriminate].
    cbn in Hit. now subst x.
Qed.

(** Bo corrects the four on the first hole to a three. *)
Lemma recordScore_rule_witness :
  Playing 0 Samples.first_hole
  /\ players (fst (updateScore (Int 1) "3" Samples.first_hole))
     = [Samples.amy; Player "Bo" (Strokes 3 :: replicate 17 Null) 3].
Proof.
  assert (H0 : Playing 0 Samples.first_hole)
    by (repeat split; (reflexivity || lia)).
  split; [exact H0|].
  destruct (recordScore_rule Samples.first_hole 0 (Int 1) "3" H0) as (_ & H).
  destruct (H 1%nat Samples.bo 3) as (_ & H1 & _);
    [reflexivity | reflexivity | reflexivity | lia |].
  rewrite H1. reflexivity.
Defined.

(** ** Starting a round *)

Lemma slice0_short n s : (String.length s <= n)%nat -> slice0 n s = s.
Proof.
  unfold slice0. revert n. induction s as [|c s IH]; intros [|n] H;
    cbn in *; try reflexivity; try lia.
  f_equal. apply IH. lia.
Qed.

(** A name that is already trimmed, not empty and within 20 characters is
    taken as it is. *)
Lemma player_name_kept i v : trim v = v -> name_ok v -> player_name i v = v.
Proof.
  intros Ht [Hne Hlen]. unfold player_name. rewrite Ht.
  destruct (String.eqb_spec v ""); [contradiction|].
  now apply slice0_short.
Qed.

(** C8.  startGame with no name input raises the alert and changes nothing.
    Otherwise it makes one player per input, in order, each with 18 null
    slots and total 0, sets gameStarted and puts the hole number back to 0,
    whatever it was; a name that needs no trimming, default or cut is taken
    as given. *)
Theorem startRound_rule inputs w :
  (inputs = [] -> startGame inputs w = (w, Some (Alert "Add at least one player")))
  /\ (inputs <> [] ->
      let w' := fst (startGame inputs w) in
      snd (startGame inputs w) = None
      /\ length (players w') = length inputs
      /\ (forall i v, inputs !! i = Some v ->
          players w' !! i = Some (Player (player_name i v) (replicate 18 Null) 0))
      /\ (forall i v, inputs !! i = Some v -> trim v = v -> name_ok v ->
          exists p, players w' !! i = Some p /\ name p = v)
      /\ gameStarted w' = true
      /\ currentHole w' = Int 0
      /\ storage w' = Some (Document (snapshot w'))).
Proof.
  split; [intros ->; reflexivity|].
  intros Hne. destruct inputs as [|v0 inputs]; [contradiction|].
  set (l := v0 :: inputs).
  assert (E : startGame l w
          = (saveState
               (World (if isValidCourse (currentCourse w) then currentCourse w
                       else "dragon")
                  (imap new_player l) (Int 0) true
                  (View true true (summarySection_active (page w))
                     (scorecardModal_active (page w)))
                  (storage w)), None)).
  { unfold startGame, l. cbn [currentCourse set_players].
    destruct (isValidCourse (currentCourse w)) eqn:Hc;
      (rewrite (renderHole_in_range _ 0);
       [reflexivity | (exact Hc || reflexivity) | reflexivity | lia]). }
  cbv zeta. rewrite E. cbn [fst snd saveState set_storage players gameStarted
                           currentHole storage].
  assert (Hl : forall i v, l !! i = Some v ->
            imap new_player l !! i
            = Some (Player (player_name i v) (replicate 18 Null) 0)).
  { intros i v Hv. rewrite list_lookup_imap, Hv. reflexivity. }
  split; [reflexivity|]. split; [apply length_imap|]. split; [exact Hl|].
  split; [|now repeat split].
  intros i v Hv Ht Hok. eexists. split; [apply (Hl i v Hv)|].
  cbn [name]. now apply player_name_kept.
Qed.

(** Two name inputs on a fresh page, the second left blank, while the hole
    number still stands at 7 from before. *)
Lemma startRound_rule_witness :
  let w' := fst (startGame ["Amy"; "  "] (set_hole (Int 7) Samples.fresh)) in
  map name (players w') = ["Amy"; "Player 2"] /\ currentHole w' = Int 0.
Proof.
  destruct (startRound_rule ["Amy"; "  "] (set_hole (Int 7) Samples.fresh))
    as (_ & H).
  destruct H as (_ & _ & _ & _ & _ & H & _); [discriminate|].
  split; [reflexivity | exact H].
Defined.

(** ** Going back *)

(** C9.  In Playing(h) with the score cards closed, the popstate listener,
    run on a back navigation from a hole h > 0, only lowers the hole number
    to h - 1 and saves: the players (names, every slot, totals), the course
    and the started flag are what they were.  The first v2.0 previousHole
    does the same in place.  From hole 0 the listener goes back to the setup,
    the players kept and the storage entry removed. *)
Theorem retreat_rule w h :
  Playing h w -> scorecardModal_active (page w) = false ->
  (0 < h ->
   let w' := popstate w in
   currentHole w' = Int (h - 1)
   /\ players w' = players w
   /\ currentCourse w' = currentCourse w
   /\ gameStarted w' = gameStarted w
   /\ page w' = page w
   /\ storage w' = Some (Document (snapshot w'))
   /\ Playing (h - 1) w'
   /\ V2.previousHole w = w')
  /\ (h = 0 ->
      let w' := popstate w in
      BackToSetup w' /\ players w' = players w /\ storage w' = None
      /\ currentHole w' = Int 0 /\ goBackToSetup w = w').
Proof.
  intros (Hg & Hh & Hr & Hc) Hm. split.
  - intros Hpos.
    assert (E : popstate w = saveState (set_hole (Int (h - 1)) w)).
    { unfold popstate. rewrite Hm, Hg, Hh. cbn [is_int decr].
      destruct (Z.eqb_spec h 0); [lia|].
      rewrite (renderHole_in_range _ (h - 1)); trivial; lia. }
    cbv zeta. rewrite E. cbn.
    repeat split; trivial; try lia.
    + unfold V2.previousHole. rewrite Hh. unfold gt_int, le_int.
      destruct (Z.leb_spec h 0); [lia|]. reflexivity.
  - intros ->. cbv zeta. unfold popstate. rewrite Hm, Hg, Hh.
    cbn. now repeat split.
Qed.

(** Back from the second hole: Cid's one and three are still there. *)
Lemma retreat_rule_witness :
  Playing 1 Samples.second_hole
  /\ currentHole (popstate Samples.second_hole) = Int 0
  /\ players (popstate Samples.second_hole) = [Samples.cid].
Proof.
  assert (H1 : Playing 1 Samples.second_hole)
    by (repeat split; (reflexivity || lia)).
  split; [exact H1|].
  destruct (retreat_rule Samples.second_hole 1 H1 eq_refl) as (H & _).
  destruct H as (Hh & Hp & _); [lia|].
  split; [exact Hh | exact Hp].
Defined.

(** ** The two courses *)

(** C10.  The two courses have the same pars, hole by hole, so two worlds
    that differ in the course only show the same description for every score,
    the same par differential for every player and the same leaderboard:
    order, ranks, differentials, rows and achievements. *)
Theorem course_choice_ignored :
  coursePars !! "dragon" = Some the_pars
  /\ coursePars !! "knight" = Some the_pars
  /\ forall c1 c2 w,
      isValidCourse c1 = true -> isValidCourse c2 = true ->
      let w1 := set_course c1 w in
      let w2 := set_course c2 w in
      (forall i strokes,
         getScoreDescription strokes <$> (pars_of c1 !! i)
         = getScoreDescription strokes <$> (pars_of c2 !! i))
      /\ (forall p, shown_description w1 p = shown_description w2 p)
      /\ (forall p, getParDifferential w1 p = getParDifferential w2 p)
      /\ sorted_players (players w1) = sorted_players (players w2)
      /\ buildLeaderboard w1 = buildLeaderboard w2.
Proof.
  split; [reflexivity|]. split; [reflexivity|].
  intros c1 c2 w H1 H2 w1 w2.
  pose proof (pars_of_valid _ H1) as P1. pose proof (pars_of_valid _ H2) as P2.
  split; [intros i strokes; now rewrite P1, P2|].
  split; [|split; [|split]].
  - intros p. unfold shown_description, par_at. subst w1 w2.
    cbn [currentCourse currentHole set_course]. now rewrite P1, P2.
  - intros p. unfold getParDifferential. subst w1 w2.
    cbn [currentCourse currentHole set_course]. now rewrite H1, H2, P1, P2.
  - reflexivity.
  - unfold buildLeaderboard. subst w1 w2.
    cbn [currentCourse players set_course]. now rewrite H1, H2, P1, P2.
Qed.

(** The first hole played on either course. *)
Lemma course_choice_ignored_witness :
  buildLeaderboard (set_course "dragon" Samples.first_hole)
  = buildLeaderboard (set_course "knight" Samples.first_hole).
Proof.
  destruct course_choice_ignored as (_ & _ & H).
  destruct (H "dragon" "knight" Samples.first_hole) as (_ & _ & _ & _ & E);
    [reflexivity | reflexivity | exact E].
Defined.

(** ** Saving and loading *)

Lemma isValidCourse_nonempty c : isValidCourse c = true -> truthy (Some (JStr c)) = true.
Proof.
  unfold isValidCourse. rewrite !andb_true_iff. now intros [[H _] _].
Qed.

Lemma load_score_saved s : slot_ok s -> load_score (score_json s) = s.
Proof.
  intros [-> | (n & -> & Hn)]; [reflexivity|].
  cbn [score_json load_score].
  now rewrite (proj2 (isValidScore_iff n) Hn).
Qed.

Lemma load_scores_saved a :
  Forall slot_ok a -> map load_score (map score_json a) = a.
Proof.
  induction 1 as [|s a Hs _ IH]; [reflexivity|].
  cbn [map]. now rewrite load_score_saved, IH.
Qed.

(** A saved player with a name as startGame makes it and 18 proper slots
    loads as it was, the total recalculated. *)
Lemma load_player_saved text_of p :
  name_ok (name p) -> length (scores p) = 18%nat -> Forall slot_ok (scores p) ->
  load_player text_of (player_json p) = Some (recounted p).
Proof.
  intros [Hne Hlen] H18 Hok.
  unfold load_player, load_scores, load_name, guarded_prop, player_json.
  cbn [truthy prop lookup_field String.eqb Ascii.eqb Bool.eqb to_text].
  destruct (String.eqb_spec (name p) ""); [contradiction|].
  cbn [negb option_map].
  rewrite length_map, H18. cbn [Z.of_nat HOLES_COUNT Z.eqb Pos.of_succ_nat
                                Pos.succ Pos.eqb].
  rewrite load_scores_saved by assumption.
  rewrite slice0_short by assumption. reflexivity.
Qed.






(** ** Validation on load *)

(** A stored course passes when it is one of the two course names; an absent
    one does not. *)
Lemma isValidCourseValue_string text_of s :
  isValidCourseValue text_of (Some (JStr s)) = true
  <-> s = "dragon" \/ s = "knight".
Proof.
  unfold isValidCourseValue. cbn [key_of to_text].
  rewrite andb_true_iff, isValidCourse_iff. split; [tauto|].
  intros H. split; [|exact H].
  apply isValidCourse_nonempty, isValidCourse_iff, H.
Qed.

Lemma isValidCourseValue_absent text_of :
  isValidCourseValue text_of None = false.
Proof. reflexivity. Qed.

(** The snapshot is thrown away as a whole, entry removed, when the course is
    not valid, the players are not a non-empty array, or the hole does not
    pass. *)
Lemma loadState_discards text_of w parsed :
  storage w = Some (Document parsed) ->
  isValidCourseValue text_of (prop parsed "course") = false
  \/ (forall p ps, prop parsed "players" <> Some (JArr (p :: ps)))
  \/ ~ hole_passes (prop parsed "hole") ->
  loadState text_of w = (removeItem w, false).
Proof.
  intros Hst Hbad. unfold loadState. rewrite Hst.
  destruct parsed as [|b|n|s|items|fields]; try reflexivity;
    (destruct (isValidCourseValue text_of _) eqn:Hc; cbn [negb];
     [|reflexivity]);
    (destruct (prop _ "players") as [[| | | |[|p ps]|]|] eqn:Hp;
     try reflexivity);
    (destruct (prop _ "hole") as [[| |hole| | |]|] eqn:Hh; try reflexivity);
    (destruct (lt_int hole 0 || ge_int hole HOLES_COUNT) eqn:Hr;
     [reflexivity|]);
    exfalso; (destruct Hbad as [Hbad | [Hbad | Hbad]];
              [congruence | now apply (Hbad p ps) |]);
    apply Hbad; exists hole; (split; [reflexivity|]);
    apply orb_false_iff in Hr; destruct Hr as [H1 H2];
    unfold lt_int, ge_int, HOLES_COUNT in *;
    apply Z.ltb_ge in H1; apply Z.leb_gt in H2; lia.
Qed.

(** A course that passes the check has a key, and the key is a course. *)
Lemma isValidCourseValue_key text_of course :
  isValidCourseValue text_of course = true ->
  exists key, key_of text_of course = Some key /\ isValidCourse key = true.
Proof.
  unfold isValidCourseValue. intros H. apply andb_true_iff in H as [_ H].
  destruct (key_of text_of course) as [key|]; [|discriminate]. now exists key.
Qed.

(** A snapshot that passes the three checks and whose player names have a
    text is kept: every player is loaded on its own, and the entry stays. *)
Lemma loadState_keeps text_of w parsed p ps loaded hole :
  storage w = Some (Document parsed) ->
  isValidCourseValue text_of (prop parsed "course") = true ->
  prop parsed "players" = Some (JArr (p :: ps)) ->
  load_players text_of (p :: ps) = Some loaded ->
  prop parsed "hole" = Some (JNum hole) -> 0 <= floor hole < 18 ->
  let w' := fst (loadState text_of w) in
  snd (loadState text_of w) = true
  /\ players w' = loaded
  /\ currentHole w' = hole
  /\ storage w' = storage w.
Proof.
  intros Hst Hc Hp Hl Hh Hr. unfold loadState. rewrite Hst.
  assert (Hin : lt_int hole 0 || ge_int hole HOLES_COUNT = false).
  { unfold lt_int, ge_int, HOLES_COUNT. apply orb_false_iff.
    split; [apply Z.ltb_ge | apply Z.leb_gt]; lia. }
  destruct (isValidCourseValue_key _ _ Hc) as (key & Hk & Hv).
  destruct parsed as [|b|n|s|items|fields]; try discriminate.
  rewrite Hc, Hp, Hh, Hin, Hk, Hl. cbn [negb fst snd].
  unfold restore, renderHole.
  unfold set_course, set_started, set_players, set_page, set_hole.
  cbn [currentCourse players currentHole gameStarted page storage].
  rewrite Hv.
  cbn [currentCourse players currentHole gameStarted page storage].
  rewrite Hin. now repeat split.
Qed.

(** Where the name of a player has no text, String(p.name) throws after the
    course and the started flag are written: the entry is removed and false
    returned, the players, the hole number and the page left as they
    were. *)
Lemma loadState_interrupted text_of w parsed p ps hole :
  storage w = Some (Document parsed) ->
  isValidCourseValue text_of (prop parsed "course") = true ->
  prop parsed "players" = Some (JArr (p :: ps)) ->
  load_players text_of (p :: ps) = None ->
  prop parsed "hole" = Some (JNum hole) -> 0 <= floor hole < 18 ->
  exists key,
    key_of text_of (prop parsed "course") = Some key
    /\ loadState text_of w
       = (World key (players w) (currentHole w)
            (truthy (prop parsed "gameStarted")) (page w) None,
          false).
Proof.
  intros Hst Hc Hp Hl Hh Hr. unfold loadState. rewrite Hst.
  assert (Hin : lt_int hole 0 || ge_int hole HOLES_COUNT = false).
  { unfold lt_int, ge_int, HOLES_COUNT. apply orb_false_iff.
    split; [apply Z.ltb_ge | apply Z.leb_gt]; lia. }
  destruct (isValidCourseValue_key _ _ Hc) as (key & Hk & Hv).
  exists key. split; [exact Hk|].
  destruct parsed as [|b|n|s|items|fields]; try discriminate.
  rewrite Hc, Hp, Hh, Hin, Hk, Hl. reflexivity.
Qed.

(** Names that are absent, falsy or strings have a text, whatever the other
    values do. *)
Lemma plain_names_load text_of ps :
  Forall plain_name ps -> exists loaded, load_players text_of ps = Some loaded.
Proof.
  induction 1 as [|p ps Hp _ [loaded IH]]; [now exists []|].
  cbn [load_players]. rewrite IH.
  assert (E : exists n, load_name text_of p = Some n).
  { unfold plain_name in Hp. unfold load_name.
    destruct (guarded_prop p "name") as [v|]; [|now eexists].
    destruct Hp as [Hf | [s ->]]; [rewrite Hf; now eexists|].
    cbn [to_text option_map]. destruct (truthy _); now eexists. }
  destruct E as [n En]. unfold load_player. rewrite En. now eexists.
Qed.

(** In an array of 18 stored scores every slot is judged on its own: an
    integer from 1 to 11 is kept, anything else becomes null. *)
Lemma load_scores_slotwise p items :
  guarded_prop p "scores" = Some (JArr items) -> length items = 18%nat ->
  load_scores p = map load_score items
  /\ forall i v, items !! i = Some v ->
       load_scores p !! i
       = Some (match v with
               | JNum (Int z) => if (1 <=? z) && (z <=? 11) then Strokes z else Null
               | _ => Null
               end).
Proof.
  intros Hp Hlen. unfold load_scores. rewrite Hp, Hlen.
  change (Z.of_nat 18 =? HOLES_COUNT) with true. cbv iota.
  split; [reflexivity|]. intros i v Hv.
  rewrite lookup_map, Hv.
  destruct v as [| |[z|b]| | |]; reflexivity.
Qed.

(** The total of a loaded player is the sum of the strokes loaded; a total
    stored with the player is not looked at. *)
Lemma load_player_total text_of p q :
  load_player text_of p = Some q -> total q = strokes_sum (scores q).
Proof.
  unfold load_player. destruct (load_name text_of p); [|discriminate].
  intros [= <-]. cbn. apply sum_scores_strokes.
Qed.

Lemma load_player_ignores_total text_of fields t :
  load_player text_of (JObj (("total", t) :: fields))
  = load_player text_of (JObj fields).
Proof. reflexivity. Qed.

(** Hole 25 is refused, and the 15 strokes of [Samples.score_15] become a
    null while the 3 strokes next to them stay and make the total. *)
Lemma loadState_examples text_of w :
  (forall parsed, prop parsed "hole" = Some (JNum (Int 25)) ->
     loadState text_of (set_storage (Some (Document parsed)) w)
     = (removeItem w, false))
  /\ players (fst (loadState text_of
                    (set_storage (Some (Document Samples.score_15)) w)))
     = [Player "Amy" (Null :: Strokes 3 :: replicate 16 Null) 3].
Proof.
  split; [|reflexivity].
  intros parsed Hh.
  rewrite (loadState_discards text_of _ parsed); [reflexivity | reflexivity |].
  right; right. intros (n & Hn & Hr). rewrite Hh in Hn.
  injection Hn as <-. cbn in Hr. lia.
Qed.

(** C7, where the code parts from it.  A stored snapshot with a valid
    course and a non-empty array of players, each with a name that is absent,
    falsy or a string, whose hole is a non-integer number between 0 and 18 is
    not thrown away: loadState returns true, keeps the entry and loads the
    players, and the script goes on with the fractional hole number. *)
Theorem fractional_hole_is_kept text_of w parsed p ps b :
  storage w = Some (Document parsed) ->
  isValidCourseValue text_of (prop parsed "course") = true ->
  prop parsed "players" = Some (JArr (p :: ps)) ->
  Forall plain_name (p :: ps) ->
  prop parsed "hole" = Some (JNum (Frac b)) -> 0 <= b < 18 ->
  snd (loadState text_of w) = true
  /\ currentHole (fst (loadState text_of w)) = Frac b
  /\ isInteger (currentHole (fst (loadState text_of w))) = false
  /\ load_players text_of (p :: ps)
     = Some (players (fst (loadState text_of w)))
  /\ storage (fst (loadState text_of w)) = Some (Document parsed).
Proof.
  intros Hst Hc Hp Hn Hh Hb.
  destruct (plain_names_load text_of _ Hn) as [loaded Hl].
  destruct (loadState_keeps text_of w parsed p ps loaded (Frac b)
              Hst Hc Hp Hl Hh Hb)
    as (Hok & Hpl & Hhole & Hkept).
  rewrite Hhole, Hkept, Hst, Hpl. now repeat split.
Qed.

(** The snapshot with hole 2.5, found in the storage of a fresh page. *)
Lemma fractional_hole_is_kept_witness :
  let w0 := set_storage (Some (Document Samples.half_hole)) Samples.fresh in
  snd (loadState Samples.no_text w0) = true
  /\ currentHole (fst (loadState Samples.no_text w0)) = Frac 2.
Proof.
  intros w0.
  destruct (fractional_hole_is_kept Samples.no_text w0 Samples.half_hole
              (JObj [("name", JStr "Amy");
                     ("scores", JArr (replicate 18 JNull))])
              [] 2) as (H1 & H2 & _);
    [reflexivity | reflexivity | reflexivity | | reflexivity | lia |].
  - apply List.Forall_cons; [|apply List.Forall_nil].
    right. now exists "Amy".
  - split; [exact H1 | exact H2].
Defined.

(** What a fractional hole number does to the round: no slot of any array
    is at that position, so nextHole never finds a null there and never
    refuses, and a score recorded there reaches no slot: scores and total stay
    as they were, and so does what is saved of them. *)
Lemma fractional_hole_never_refuses w b :
  currentHole w = Frac b -> snd (nextHole w) = None.
Proof.
  intros Hh. unfold nextHole. rewrite Hh.
  replace (existsb _ (players w)) with false.
  - now destruct (lt_int (Frac b) (HOLES_COUNT - 1)).
  - symmetry. apply not_true_is_false. rewrite existsb_exists.
    intros (p & _ & Hp). discriminate.
Qed.

Lemma fractional_hole_loses_score b s p :
  scores (record (Frac b) s p) = scores p
  /\ player_json (record (Frac b) s p) = player_json p.
Proof. split; reflexivity. Qed.

(** ** What stays true of the round *)






Lemma strokes_sum_unscored n : strokes_sum (replicate n Null) = 0.
Proof. induction n; cbn; trivial. Qed.

Lemma unscored_ok n : Forall slot_ok (replicate n Null).
Proof. induction n; cbn; constructor; trivial. now left. Qed.

Lemma new_player_ok i value : player_ok (new_player i value).
Proof.
  split; [reflexivity|]. split; [apply unscored_ok|].
  cbn. now rewrite strokes_sum_unscored.
Qed.

Lemma record_ok hole s p :
  0 <= floor hole <= 17 -> 1 <= s <= 11 -> player_ok p ->
  player_ok (record hole s p).
Proof.
  intros Hh Hs (Hlen & Hok & Ht). unfold record.
  assert (Ha : length (assign (scores p) hole (Strokes s)) = 18%nat
               /\ Forall slot_ok (assign (scores p) hole (Strokes s))).
  { unfold assign. destruct (index hole) as [i|] eqn:Hi; [|now split].
    assert (i < 18)%nat.
    { destruct hole as [z|b]; cbn in Hi, Hh; [|discriminate].
      destruct (0 <=? z); [|discriminate]. injection Hi as <-. lia. }
    rewrite Hlen. destruct (Nat.ltb_spec i 18); [|lia].
    split; [now rewrite length_insert|].
    apply Forall_insert; [assumption|]. right. now exists s. }
  destruct Ha as [Hl' Hok']. split; [exact Hl'|]. split; [exact Hok'|].
  cbn. apply sum_scores_strokes.
Qed.





(** ** The earlier listings *)

(** updateScore of v1.1 stores whatever integer it reads, and throws on an
    index without a player. *)
Lemma V1_updateScore_unchecked :
  players (fst (V1.updateScore (Int 1) "15" Samples.first_hole))
  = [Samples.amy; Player "Bo" (Strokes 15 :: replicate 17 Null) 15]
  /\ V1.updateScore (Int 5) "3" Samples.first_hole
     = (Samples.first_hole, Some Uncaught).
Proof. split; reflexivity. Qed.

(** startGame of v1.1 leaves the hole number where it was, and empties the
    player list before it refuses an empty input list. *)
Lemma V1_startGame_differs :
  currentHole (fst (V1.startGame ["Amy"] (set_hole (Int 7) Samples.fresh)))
  = Int 7
  /\ players (fst (V1.startGame [] Samples.first_hole)) = [].
Proof. split; reflexivity. Qed.

(** Ten strokes or more earn an achievement in v1.1 only. *)
Lemma V1_persistence :
  V1.score_achievements the_pars 0 (Strokes 10) = ["🎯 Persistence"]
  /\ score_achievements the_pars 0 (Strokes 10) = [].
Proof. split; reflexivity. Qed.

Import Setup.

(** ** The setup *)

Lemma shown_count inputs : shown inputs -> (1 <= length inputs <= 6)%nat.
Proof.
  induction 1 as [|inputs _ IH|i inputs _ IH Hi|i value inputs _ IH Hi].
  - cbn. lia.
  - unfold addPlayer, MAX_PLAYERS.
    destruct (Z.leb_spec 6 (Z.of_nat (length inputs))); cbn [fst]; [exact IH|].
    rewrite length_app. cbn. lia.
  - unfold removePlayer.
    destruct (Nat.leb_spec (length inputs) 1); cbn [fst]; [exact IH|].
    rewrite length_delete by (now apply lookup_lt_is_Some). lia.
  - unfold type_name. now rewrite length_insert.
Qed.

Lemma slice0_length n s : (String.length (slice0 n s) <= n)%nat.
Proof.
  unfold slice0. revert n. induction s as [|c s IH]; intros [|n]; cbn; try lia.
  specialize (IH n). lia.
Qed.

Lemma slice0_nonempty n s : s <> "" -> slice0 (S n) s <> "".
Proof. destruct s; [congruence|]. discriminate. Qed.

Lemma player_name_ok i v : name_ok (player_name i v).
Proof.
  unfold player_name. split; [|apply slice0_length].
  apply slice0_nonempty.
  destruct (String.eqb_spec (trim v) ""); [discriminate | assumption].
Qed.

Lemma renderHole_id w :
  isValidCourse (currentCourse w) = true -> 0 <= floor (currentHole w) <= 17 ->
  renderHole w = w.
Proof.
  intros Hc Hr. unfold renderHole. rewrite Hc.
  unfold lt_int, ge_int, HOLES_COUNT.
  destruct (Z.ltb_spec (floor (currentHole w)) 0); [lia|].
  destruct (Z.leb_spec 18 (floor (currentHole w))); [lia|]. reflexivity.
Qed.

Lemma startGame_world v inputs w :
  fst (startGame (v :: inputs) w)
  = saveState
      (World (if isValidCourse (currentCourse w) then currentCourse w else "dragon")
         (imap new_player (v :: inputs)) (Int 0) true
         (View true true (summarySection_active (page w))
            (scorecardModal_active (page w)))
         (storage w)).
Proof.
  unfold startGame. cbn [fst]. f_equal.
  destruct (isValidCourse (currentCourse w)) eqn:Hc.
  - cbn [currentCourse set_players]. rewrite Hc.
    apply renderHole_id; [exact Hc | cbn; lia].
  - cbn [currentCourse set_players]. rewrite Hc.
    apply renderHole_id; [reflexivity | cbn; lia].
Qed.

(** X1.  From the two empty inputs resetGame shows, adding, removing and
    writing names leaves between one and six inputs (addPlayer refuses a
    seventh, removePlayer the last).  startGame on them raises no alert and
    makes one player per input, each with a name that is not empty and has at
    most 20 characters, 18 null slots and total 0, on hole 0 of a valid
    course. *)
Theorem setup_starts_a_round inputs w :
  Setup.shown inputs ->
  (1 <= length inputs <= 6)%nat
  /\ snd (startGame inputs w) = None
  /\ players (fst (startGame inputs w)) = imap new_player inputs
  /\ length (players (fst (startGame inputs w))) = length inputs
  /\ Forall (fun p => name_ok (name p) /\ scores p = replicate 18 Null
                      /\ total p = 0)
       (players (fst (startGame inputs w)))
  /\ Playing 0 (fst (startGame inputs w)).
Proof.
  intros Hs. pose proof (shown_count inputs Hs) as Hn.
  split; [exact Hn|].
  destruct inputs as [|v inputs]; [cbn in Hn; lia|].
  split; [reflexivity|]. rewrite startGame_world.
  unfold saveState, set_storage.
  cbn [currentCourse players currentHole gameStarted page storage].
  split; [reflexivity|]. split; [apply length_imap|].
  split.
  - apply List.Forall_forall. intros q Hq.
    apply list_elem_of_In, elem_of_lookup_imap in Hq.
    destruct Hq as (i & x & -> & _). cbn [new_player name scores total].
    split; [apply player_name_ok | now split].
  - unfold Playing.
    cbn [currentCourse players currentHole gameStarted page storage].
    repeat split; try lia.
    destruct (isValidCourse (currentCourse w)) eqn:E; [exact E | reflexivity].
Qed.

(** A name in the first input, a third input added: Amy and two players
    with the default names. *)
Lemma setup_starts_a_round_witness :
  map name (players (fst (startGame Samples.three_inputs Samples.fresh)))
  = ["Amy"; "Player 2"; "Player 3"].
Proof.
  destruct (setup_starts_a_round Samples.three_inputs Samples.fresh) as (_ & _ & Hp & _).
  - apply Setup.shown_add, Setup.shown_type; [apply Setup.shown_reset | cbn; lia].
  - rewrite Hp. vm_compute. reflexivity.
Defined.

(** ** A round played from startGame *)

Lemma updateScore_cases idx value w :
  isValidCourse (currentCourse w) = true -> 0 <= floor (currentHole w) <= 17 ->
  updateScore idx value w = (w, snd (updateScore idx value w))
  \/ exists strokes i,
       parseInt value = Some strokes /\ 1 <= strokes <= 11
       /\ idx = Int (Z.of_nat i) /\ (i < length (players w))%nat
       /\ updateScore idx value w
          = (saveState (set_players
               (alter (record (currentHole w) strokes) i (players w)) w), None).
Proof.
  intros Hc Hr. unfold updateScore.
  destruct (parseInt value) as [strokes|]; [|now left].
  destruct (isValidPlayerIndex w idx) eqn:Hi; [|now left].
  destruct (isValidScore (Int strokes)) eqn:Hs; [|now left].
  rewrite Hc. cbn [negb]. right.
  apply isValidPlayerIndex_iff in Hi. apply isValidScore_iff in Hs.
  destruct Hi as (i & -> & Hi). exists strokes, i.
  repeat (split; [trivial; lia|]).
  cbn [floor]. rewrite Nat2Z.id.
  rewrite renderHole_id; trivial.
Qed.

Lemma session_eta s :
  Browser.Session (Browser.doc s) (Browser.location s) (Browser.older s) = s.
Proof. now destruct s. Qed.

Lemma number_eq_or (x y : number) : x = y \/ x <> y.
Proof.
  destruct x as [a|a], y as [b|b]; try (right; discriminate);
    destruct (Z.eq_dec a b) as [->|Hne]; (now left) || (right; congruence).
Qed.

Lemma item_assign_scored a hole s x n :
  item a x = Strokes n -> exists n', item (assign a hole (Strokes s)) x = Strokes n'.
Proof.
  intros Hx. destruct (number_eq_or hole x) as [->|Hne].
  - destruct (index x) as [i|] eqn:Hi.
    + exists s. now apply item_assign_eq with i.
    + exists n. unfold assign. now rewrite Hi.
  - exists n. now rewrite item_assign_ne.
Qed.

Lemma item_scored a h :
  length a = 18%nat -> Forall slot_ok a -> 0 <= h <= 17 ->
  is_null (item a (Int h)) = false -> exists n, item a (Int h) = Strokes n.
Proof.
  intros Hlen Hok Hh Hn. unfold item, index in *.
  destruct (Z.leb_spec 0 h); [|lia].
  destruct (lookup_lt_is_Some_2 a (Z.to_nat h)) as [s Hs]; [lia|].
  rewrite Hs in *. cbn in *.
  assert (Hs' : slot_ok s).
  { apply (proj1 (List.Forall_forall _ _) Hok).
    apply list_elem_of_In. eapply list_elem_of_lookup_2; eauto. }
  destruct Hs' as [-> | (n & -> & _)]; [discriminate | now exists n].
Qed.

Lemma trail_S h :
  Browser.trail (S h)
  = Browser.At_hole (Int (Z.of_nat h + 1)) :: Browser.trail h.
Proof.
  unfold Browser.trail. rewrite seq_S, rev_app_distr. cbn [rev app map].
  do 3 f_equal. lia.
Qed.

Lemma steady_start inputs s :
  inputs <> [] -> scorecardModal_active (page (Browser.doc s)) = false ->
  Browser.steady (fst (Browser.startGame inputs s)).
Proof.
  intros Hne Hm. destruct inputs as [|v inputs]; [contradiction|].
  unfold Browser.startGame. cbn [fst]. rewrite startGame_world.
  set (w := Browser.doc s) in *.
  assert (Hc : isValidCourse
                 (if isValidCourse (currentCourse w) then currentCourse w
                  else "dragon") = true)
    by (destruct (isValidCourse (currentCourse w)) eqn:E; [exact E | reflexivity]).
  unfold Browser.steady, Browser.pushState, Browser.set_doc, saveState, set_storage.
  cbn [Browser.doc Browser.location Browser.older currentCourse players
       currentHole gameStarted page storage scorecardModal_active
       playerSetup_hidden holePlay_active].
  assert (Hp : Forall player_ok (imap new_player (v :: inputs))).
  { apply List.Forall_forall. intros q Hq.
    apply list_elem_of_In, elem_of_lookup_imap in Hq.
    destruct Hq as (i & x & -> & _). apply new_player_ok. }
  split; [|split; [|split; [|split; [|split; [|split; [|split]]]]]].
  - split; [exact Hp|]. split; [cbn; lia | intros _; exact Hc].
  - discriminate.
  - apply List.Forall_forall. intros q Hq.
    apply list_elem_of_In, elem_of_lookup_imap in Hq.
    destruct Hq as (i & x & -> & _). apply player_name_ok.
  - exact Hc.
  - exact Hm.
  - intros p i _ Hi. cbn in Hi. lia.
  - now exists 0.
  - intros _. split; [|now repeat split].
    exists 0%nat. cbn [Browser.doc Browser.location Browser.older currentHole].
    repeat split; try lia. now eexists.
Qed.

Lemma in_alter_record hole strokes i ps q :
  In q (alter (record hole strokes) i ps) ->
  In q ps \/ exists p, In p ps /\ q = record hole strokes p.
Proof.
  intros Hq. apply list_elem_of_In, list_elem_of_lookup in Hq.
  destruct Hq as [j Hj].
  destruct (decide (i = j)) as [<-|Hne].
  - rewrite list_lookup_alter_eq in Hj.
    destruct (ps !! i) as [p|] eqn:Hp; [|discriminate].
    injection Hj as <-. right. exists p. split; [|reflexivity].
    apply list_elem_of_In. eapply list_elem_of_lookup_2; eauto.
  - rewrite list_lookup_alter_ne in Hj by assumption. left.
    apply list_elem_of_In. eapply list_elem_of_lookup_2; eauto.
Qed.

Lemma steady_update idx value s :
  Browser.steady s -> Browser.steady (fst (Browser.updateScore idx value s)).
Proof.
  intros Hall. pose proof Hall as (Hp & Hne & Hn & Hc & Hm & Hcu & Hh & Hs).
  unfold Browser.updateScore. cbn [fst].
  destruct Hp as (Hpl & Hr & Hpc).
  destruct (updateScore_cases idx value (Browser.doc s) Hc Hr)
    as [E | (strokes & i & _ & Hst & _ & Hi & E)]; rewrite E; cbn [fst].
  - unfold Browser.set_doc. now rewrite session_eta.
  - unfold Browser.steady, Browser.set_doc, saveState, set_storage, set_players.
    cbn [Browser.doc Browser.location Browser.older currentCourse players
         currentHole gameStarted page storage].
    assert (Hpl' : Forall player_ok
                     (alter (record (currentHole (Browser.doc s)) strokes) i
                        (players (Browser.doc s)))).
    { apply Forall_alter; [exact Hpl|]. intros p _ Hok. now apply record_ok. }
    split; [|split; [|split; [|split; [|split; [|split; [|split]]]]]];
      trivial.
    + now repeat split.
    + intros E'. apply (f_equal (@length player)) in E'.
      rewrite length_alter in E'. cbn in E'. lia.
    + apply Forall_alter; [exact Hn|]. intros p _ Hok. exact Hok.
    + intros q j Hq Hj. apply in_alter_record in Hq.
      destruct Hq as [Hq | (p & Hq & ->)]; [now apply Hcu|].
      destruct (Hcu p j Hq Hj) as [n Hn']. cbn [scores record].
      now apply item_assign_scored with n.
    + intros Hg. destruct (Hs Hg) as (Hstep & _ & Hf1 & Hf2).
      split; [exact Hstep|]. now repeat split.
Qed.

Lemma all_scored_item w p :
  existsb (fun p => is_null (item (scores p) (currentHole w))) (players w) = false ->
  In p (players w) -> is_null (item (scores p) (currentHole w)) = false.
Proof.
  intros He Hp.
  destruct (is_null (item (scores p) (currentHole w))) eqn:E; [|reflexivity].
  rewrite <- He. symmetry. apply existsb_exists. now exists p.
Qed.

Lemma steady_next s :
  Browser.steady s -> Browser.steady (fst (Browser.nextHole s)).
Proof.
  intros Hall. pose proof Hall as (Hp & Hne & Hn & Hc & Hm & Hcu & [h Hh] & Hs).
  destruct Hp as (Hpl & Hr & Hpc).
  unfold Browser.nextHole.
  destruct (existsb _ (players (Browser.doc s))) eqn:He; [exact Hall|].
  rewrite Hh in Hr. cbn [floor] in Hr.
  unfold lt_int, HOLES_COUNT. rewrite Hh. cbn [floor].
  destruct (Z.ltb_spec h (18 - 1)) as [Hlt|Hge]; cbn [fst].
  - (* the next hole *)
    unfold nextHole. rewrite He, Hh. unfold lt_int, HOLES_COUNT. cbn [floor].
    destruct (Z.ltb_spec h (18 - 1)); [|lia]. cbn [fst incr].
    rewrite renderHole_id by (cbn; trivial; lia).
    unfold Browser.steady, Browser.pushState, Browser.set_doc, saveState,
      set_storage, set_hole.
    cbn [Browser.doc Browser.location Browser.older currentCourse players
         currentHole gameStarted page storage].
    split; [|split; [|split; [|split; [|split; [|split; [|split]]]]]];
      trivial.
    + split; [exact Hpl|]. split; [cbn; lia | intros _; exact Hc].
    + intros p i Hin Hi. cbn [floor currentHole] in Hi.
      destruct (Z.eq_dec i h) as [->|Hih].
      * rewrite <- Hh.
        pose proof (all_scored_item _ p He Hin) as Hnn.
        destruct (proj1 (List.Forall_forall _ _) Hpl p Hin) as (Hlen & Hok & _).
        rewrite Hh in *. now apply item_scored.
      * apply Hcu; trivial. rewrite Hh. cbn. lia.
    + eexists; reflexivity.
    + intros Hg. destruct (Hs Hg) as ((n & Hn1 & Hn2 & Hloc & base & Hb) & _ & Hf1 & Hf2).
      split; [|now repeat split].
      rewrite Hh in Hn1. injection Hn1 as ->.
      exists (S n). cbn [Browser.doc Browser.location Browser.older currentHole].
      split; [f_equal; lia|]. split; [lia|]. split; [do 2 f_equal; lia|].
      exists base. rewrite trail_S, Hloc, Hb. reflexivity.
  - (* the end of the round *)
    unfold Browser.endGame, Browser.replaceState, Browser.set_doc, endGame,
      removeItem, set_storage, set_page, set_started, Browser.steady.
    cbn [Browser.doc Browser.location Browser.older currentCourse players
         currentHole gameStarted page storage scorecardModal_active].
    split; [|split; [|split; [|split; [|split; [|split; [|split]]]]]];
      trivial.
    + split; [exact Hpl|]. split; [rewrite Hh; cbn; lia | discriminate].
    + now exists h.
    + discriminate.
Qed.

Lemma steady_previous s s' :
  Browser.steady s -> Browser.previousHole s = Some s' -> Browser.steady s'.
Proof.
  intros Hall. pose proof Hall as (Hp & Hne & Hn & Hc & Hm & Hcu & [h Hh] & Hs).
  destruct Hp as (Hpl & Hr & Hpc).
  unfold Browser.previousHole. rewrite Hh. unfold gt_int, le_int.
  rewrite Hh in Hr. cbn [floor] in Hr.
  destruct (Z.leb_spec h 0) as [Hle|Hgt]; cbn [negb].
  { now intros [= <-]. }
  unfold Browser.back. destruct (Browser.older s) as [|a rest] eqn:Hold;
    [discriminate|].
  intros [= <-]. unfold Browser.popstate.
  cbn [Browser.doc]. rewrite Hm.
  destruct (gameStarted (Browser.doc s)) eqn:Hg.
  - rewrite Hh. unfold is_int. destruct (Z.eqb_spec h 0) as [|_]; [lia|].
    unfold popstate. rewrite Hm, Hg, Hh. unfold is_int.
    destruct (Z.eqb_spec h 0) as [|_]; [lia|]. cbn [decr].
    rewrite renderHole_id by (cbn; trivial; lia).
    unfold Browser.steady, Browser.set_doc, saveState, set_storage, set_hole.
    cbn [Browser.doc Browser.location Browser.older currentCourse players
         currentHole gameStarted page storage].
    split; [|split; [|split; [|split; [|split; [|split; [|split]]]]]];
      trivial.
    + split; [exact Hpl|]. split; [cbn; lia | intros _; exact Hc].
    + intros p i Hin Hi. cbn [floor currentHole] in Hi. apply Hcu; trivial.
      rewrite Hh. cbn. lia.
    + eexists; reflexivity.
    + intros _. destruct (Hs eq_refl) as ((k & Hn1 & Hn2 & Hloc & base & Hb) & _ & Hf1 & Hf2).
      split; [|now repeat split].
      rewrite Hh in Hn1. injection Hn1 as ->.
      destruct k as [|n]; [lia|]. rewrite Hold, trail_S in Hb.
      injection Hb as -> ->.
      exists n. cbn [Browser.doc Browser.location Browser.older currentHole].
      split; [f_equal; lia|]. split; [lia|]. split; [reflexivity|].
      now exists base.
  - unfold Browser.steady. cbn [Browser.doc Browser.location Browser.older].
    split; [|split; [|split; [|split; [|split; [|split; [|split]]]]]];
      trivial.
    + split; [exact Hpl|]. split; [rewrite Hh; cbn; lia | intros _; exact Hc].
    + now exists h.
    + intros E. congruence.
Qed.

Lemma played_steady s : Browser.played s -> Browser.steady s.
Proof.
  induction 1 as [inputs s Hne Hm|idx value s _ IH|s _ IH|s s' _ IH Hs].
  - now apply steady_start.
  - now apply steady_update.
  - now apply steady_next.
  - now apply steady_previous with s.
Qed.

Lemma played_both_score s : Browser.played s -> Browser.played (Samples.both_score s).
Proof. intros H. unfold Samples.both_score. now do 2 apply Browser.played_update. Qed.

Lemma played_one_hole s : Browser.played s -> Browser.played (Samples.one_hole s).
Proof. intros H. apply Browser.played_next. now apply played_both_score. Qed.

Lemma played_holes_on n : Browser.played (Nat.iter n Samples.one_hole Samples.round_start).
Proof.
  induction n as [|n IH]; cbn [Nat.iter].
  - apply Browser.played_start; [discriminate | reflexivity].
  - now apply played_one_hole.
Qed.

Lemma played_third_hole : Browser.played Samples.third_hole.
Proof.
  unfold Samples.third_hole. do 2 apply played_one_hole. apply (played_holes_on 0).
Qed.

Lemma played_last_hole : Browser.played Samples.last_hole.
Proof. unfold Samples.last_hole. apply played_both_score, played_holes_on. Qed.

(** X2.  In a round played from startGame (score cards closed) by recording
    scores and going to the next and the previous hole, while the round is
    started the address is #hole(h+1) for the current hole h and the entries
    below it are those of the holes h, ..., 1.  So on every hole after the
    first previousHole finds an entry to go back to: the listener runs, the
    round is on hole h - 1 with the same players, and the address follows. *)
Theorem history_follows_round s :
  Browser.played s -> gameStarted (Browser.doc s) = true ->
  Browser.in_step s
  /\ (is_int (currentHole (Browser.doc s)) 0 = false ->
      exists s', Browser.previousHole s = Some s'
        /\ Browser.in_step s'
        /\ currentHole (Browser.doc s') = decr (currentHole (Browser.doc s))
        /\ players (Browser.doc s') = players (Browser.doc s)
        /\ gameStarted (Browser.doc s') = true).
Proof.
  intros Hpl Hg. pose proof (played_steady s Hpl) as Hall.
  pose proof Hall as (Hp & Hne & Hn & Hc & Hm & Hcu & _ & Hs).
  destruct (Hs Hg) as (Hstep & _). split; [exact Hstep|].
  destruct Hstep as (h & Hh & Hle & Hloc & base & Hb).
  rewrite Hh. unfold is_int. intros H0. apply Z.eqb_neq in H0.
  destruct h as [|n]; [contradiction|]. rewrite trail_S in Hb.
  assert (E : Browser.previousHole s
              = Some (Browser.set_doc
                        (saveState (set_hole (Int (Z.of_nat n)) (Browser.doc s)))
                        (Browser.Session (Browser.doc s)
                           (Browser.At_hole (Int (Z.of_nat n + 1)))
                           (Browser.trail n ++ base)))).
  { unfold Browser.previousHole, Browser.back. rewrite Hh, Hb.
    unfold gt_int, le_int. destruct (Z.leb_spec (Z.of_nat (S n)) 0); [lia|].
    cbn [negb]. f_equal. unfold Browser.popstate. cbn [Browser.doc].
    rewrite Hm, Hg, Hh. unfold is_int.
    destruct (Z.eqb_spec (Z.of_nat (S n)) 0); [lia|].
    f_equal. unfold popstate. rewrite Hm, Hg, Hh. unfold is_int.
    destruct (Z.eqb_spec (Z.of_nat (S n)) 0); [lia|].
    cbn [decr]. replace (Z.of_nat (S n) - 1) with (Z.of_nat n) by lia.
    rewrite renderHole_id by (cbn; trivial; lia). reflexivity. }
  eexists. split; [exact E|].
  pose proof (steady_previous _ _ Hall E) as (_ & _ & _ & _ & _ & _ & _ & Hs').
  split; [apply Hs'; exact Hg|].
  cbn. split; [f_equal; lia|]. split; [reflexivity | exact Hg].
Qed.

(** On the third hole; one back is the second. *)
Lemma history_follows_round_witness :
  Browser.in_step Samples.third_hole
  /\ exists s', Browser.previousHole Samples.third_hole = Some s'
       /\ currentHole (Browser.doc s') = Int 1.
Proof.
  destruct (history_follows_round Samples.third_hole) as [H1 H2];
    [apply played_third_hole | vm_compute; reflexivity |].
  split; [exact H1|].
  destruct H2 as (s' & E & _ & Hh & _); [vm_compute; reflexivity|].
  exists s'. split; [exact E|]. rewrite Hh. vm_compute. reflexivity.
Defined.

Lemma load_players_named text_of ps :
  Forall (fun p => name_ok (name p)) ps -> Forall player_ok ps ->
  load_players text_of (map player_json ps) = Some ps.
Proof.
  induction ps as [|p ps IH]; intros Hn Hs; [reflexivity|].
  inversion Hn; inversion Hs; subst. cbn [map load_players].
  match goal with H : player_ok p |- _ => destruct H as (Hl & Hok & Ht) end.
  rewrite load_player_saved by assumption. rewrite IH by assumption.
  cbn [option_map]. do 2 f_equal. destruct p as [nm a t]. unfold recounted. cbn [name scores total] in *.
  now rewrite sum_scores_strokes, Ht.
Qed.

(** A saved world of proper players with names as startGame makes them,
    shown on the play screen, loads as itself. *)
Lemma loadState_saved text_of w :
  isValidCourse (currentCourse w) = true -> players w <> [] ->
  Forall (fun p => name_ok (name p)) (players w) ->
  Forall player_ok (players w) ->
  0 <= floor (currentHole w) <= 17 ->
  playerSetup_hidden (page w) = true -> holePlay_active (page w) = true ->
  storage w = Some (Document (snapshot w)) ->
  loadState text_of w = (w, true).
Proof.
  intros Hc Hne Hn Hp Hr Hf1 Hf2 Hst.
  unfold loadState. rewrite Hst. unfold snapshot at 1.
  unfold snapshot, isValidCourseValue, key_of.
  cbn [prop lookup_field String.eqb Ascii.eqb Bool.eqb to_text].
  rewrite (isValidCourse_nonempty _ Hc), Hc. cbn [andb negb].
  destruct (players w) as [|p ps] eqn:Hps; [contradiction|].
  cbn [map].
  unfold lt_int, ge_int, HOLES_COUNT.
  destruct (Z.ltb_spec (floor (currentHole w)) 0); [lia|].
  destruct (Z.leb_spec 18 (floor (currentHole w))); [lia|].
  cbn [orb].
  change (player_json p :: map player_json ps) with (map player_json (p :: ps)).
  rewrite load_players_named by assumption.
  f_equal. unfold restore.
  unfold set_course, set_started, set_players, set_page, set_hole.
  cbn [currentCourse players currentHole gameStarted page storage to_text truthy].
  rewrite renderHole_id by (cbn; trivial).
  destruct w as [c pl hl g [f1 f2 f3 f4] st]. cbn in *. now subst.
Qed.

(** X3.  At every moment of such a round, while it is started, loadState
    finds the round as it is: it returns true and leaves the globals, the
    page flags, the stored entry and the address exactly as they are. *)
Theorem reload_resumes_round text_of s :
  Browser.played s -> gameStarted (Browser.doc s) = true ->
  Browser.loadState text_of s = (s, true).
Proof.
  intros Hpl Hg. pose proof (played_steady s Hpl) as Hall.
  pose proof Hall as ((Hp & Hr & _) & Hne & Hn & Hc & Hm & Hcu & _ & Hs).
  destruct (Hs Hg) as ((h & Hh & Hle & Hloc & _) & Hst & Hf1 & Hf2).
  unfold Browser.loadState.
  rewrite (loadState_saved text_of (Browser.doc s)) by assumption.
  unfold Browser.replaceState, Browser.set_doc. cbn [Browser.doc Browser.older].
  rewrite Hh. cbn [incr]. rewrite <- Hloc. now rewrite session_eta.
Qed.

Lemma reload_resumes_round_witness :
  Browser.loadState Samples.no_text Samples.third_hole = (Samples.third_hole, true).
Proof.
  apply reload_resumes_round;
    [apply played_third_hole | vm_compute; reflexivity].
Defined.

Lemma item_slot_ok a x n :
  Forall slot_ok a -> item a x = Strokes n -> 1 <= n <= 11.
Proof.
  intros Hok. unfold item. destruct (index x) as [i|]; [|discriminate].
  destruct (a !! i) as [s|] eqn:Hs; [|discriminate]. cbn. intros ->.
  assert (Hs' : slot_ok (Strokes n)).
  { apply (proj1 (List.Forall_forall _ _) Hok).
    apply list_elem_of_In. eapply list_elem_of_lookup_2; eauto. }
  destruct Hs' as [|(m & [= ->] & Hm)]; [discriminate | exact Hm].
Qed.

(** X4.  Such a round ends complete.  When nextHole is accepted on hole 17
    the summary is shown, the address loses its hash, the entry is removed,
    and every player has a score from 1 to 11 in each of the 18 slots, with
    the sum of them as total. *)
Theorem round_ends_fully_scored s :
  Browser.played s -> currentHole (Browser.doc s) = Int 17 ->
  snd (Browser.nextHole s) = None ->
  let s' := fst (Browser.nextHole s) in
  Summary (Browser.doc s')
  /\ storage (Browser.doc s') = None
  /\ Browser.location s' = Browser.At_page
  /\ players (Browser.doc s') = players (Browser.doc s)
  /\ forall p, In p (players (Browser.doc s')) ->
       total p = strokes_sum (scores p)
       /\ forall i, 0 <= i <= 17 ->
            exists n, item (scores p) (Int i) = Strokes n /\ 1 <= n <= 11.
Proof.
  intros Hpl Hh. pose proof (played_steady s Hpl) as Hall.
  pose proof Hall as ((Hp & Hr & _) & Hne & Hn & Hc & Hm & Hcu & _ & Hs).
  unfold Browser.nextHole.
  destruct (existsb _ (players (Browser.doc s))) eqn:He; [discriminate|].
  rewrite Hh. unfold lt_int, HOLES_COUNT. cbn [floor Z.sub Z.ltb Z.compare
    Pos.compare Pos.compare_cont Z.add Z.opp Z.pos_sub Pos.pred_double fst snd].
  intros _.
  unfold Browser.endGame, Browser.replaceState, Browser.set_doc, endGame,
    removeItem, set_storage, set_page, set_started, Summary.
  cbn [Browser.doc Browser.location Browser.older currentCourse players
       currentHole gameStarted page storage summarySection_active
       holePlay_active].
  split; [now repeat split|]. do 3 (split; [reflexivity|]).
  intros p Hin.
  destruct (proj1 (List.Forall_forall _ _) Hp p Hin) as (Hlen & Hok & Ht).
  split; [exact Ht|]. intros i Hi.
  assert (E : exists n, item (scores p) (Int i) = Strokes n).
  { destruct (Z.eq_dec i 17) as [->|Hne17].
    - apply item_scored; trivial. rewrite <- Hh.
      now apply all_scored_item.
    - apply Hcu; trivial. rewrite Hh. cbn. lia. }
  destruct E as [n En]. exists n. split; [exact En|].
  now apply item_slot_ok with (scores p) (Int i).
Qed.

Lemma round_ends_fully_scored_witness :
  Summary (Browser.doc (fst (Browser.nextHole Samples.last_hole)))
  /\ storage (Browser.doc (fst (Browser.nextHole Samples.last_hole))) = None.
Proof.
  destruct (round_ends_fully_scored Samples.last_hole) as (H1 & H2 & _).
  - apply played_last_hole.
  - vm_compute. reflexivity.
  - vm_compute. reflexivity.
  - split; [exact H1 | exact H2].
Defined.

(** X5.  In Playing(h), h < 17, with the score cards closed, an accepted
    nextHole followed by previousHole brings everything back: the globals, the
    address and the entries below it are what they were, and the stored entry
    is the snapshot of that round. *)
Theorem next_then_previous s h :
  Playing h (Browser.doc s) -> h < 17 ->
  scorecardModal_active (page (Browser.doc s)) = false ->
  snd (Browser.nextHole s) = None ->
  Browser.previousHole (fst (Browser.nextHole s))
  = Some (Browser.set_doc (saveState (Browser.doc s)) s).
Proof.
  intros (Hg & Hh & Hr & Hc) Hlt Hm. unfold Browser.nextHole.
  destruct (existsb _ (players (Browser.doc s))) eqn:He; [discriminate|].
  intros _. unfold nextHole. rewrite He, Hh. unfold lt_int, HOLES_COUNT.
  cbn [floor]. destruct (Z.ltb_spec h (18 - 1)); [|lia]. cbn [fst incr].
  rewrite renderHole_id by (cbn; trivial; lia).
  unfold Browser.previousHole, Browser.back, Browser.pushState, Browser.set_doc,
    saveState, set_storage, set_hole.
  cbn [Browser.doc Browser.location Browser.older currentCourse players
       currentHole gameStarted page storage].
  unfold gt_int, le_int. destruct (Z.leb_spec (h + 1) 0); [lia|]. cbn [negb].
  f_equal. unfold Browser.popstate, popstate.
  cbn [Browser.doc Browser.location Browser.older currentCourse players
       currentHole gameStarted page storage].
  rewrite Hm, Hg. unfold is_int. destruct (Z.eqb_spec (h + 1) 0); [lia|].
  cbn [decr]. replace (h + 1 - 1) with h by lia.
  unfold Browser.set_doc, set_hole.
  cbn [Browser.doc Browser.location Browser.older currentCourse players
       currentHole gameStarted page storage].
  rewrite renderHole_id by (cbn; trivial; lia).
  unfold saveState, set_storage, snapshot.
  cbn [Browser.doc Browser.location Browser.older currentCourse players
       currentHole gameStarted page storage].
  rewrite Hh, ?Hg. reflexivity.
Qed.

Lemma next_then_previous_witness :
  Browser.previousHole (fst (Browser.nextHole (Samples.both_score Samples.third_hole)))
  = Some (Browser.set_doc (saveState (Browser.doc (Samples.both_score Samples.third_hole)))
            (Samples.both_score Samples.third_hole)).
Proof.
  apply (next_then_previous (Samples.both_score Samples.third_hole) 2).
  - repeat split; try (vm_compute; reflexivity); lia.
  - lia.
  - vm_compute. reflexivity.
  - vm_compute. reflexivity.
Defined.

(** ** The score cards, the keyboard and the button bar *)

(** X6.  showScorecards, with players and a valid course, opens the score
    cards and pushes #scorecards; the back navigation of the browser then only
    closes them: the session is what it was before. *)
Theorem back_closes_scorecards s :
  scorecardModal_active (page (Browser.doc s)) = false ->
  players (Browser.doc s) <> [] ->
  isValidCourse (currentCourse (Browser.doc s)) = true ->
  scorecardModal_active (page (Browser.doc (Browser.showScorecards s))) = true
  /\ Browser.location (Browser.showScorecards s) = Browser.At_scorecards
  /\ Browser.back (Browser.showScorecards s) = Some s.
Proof.
  intros Hm Hne Hc. unfold Browser.showScorecards, showScorecards.
  destruct (players (Browser.doc s)) as [|p ps] eqn:Hps; [contradiction|].
  rewrite Hc. cbn [negb].
  unfold Browser.back, Browser.pushState, Browser.set_doc.
  cbn [Browser.doc Browser.location Browser.older].
  do 2 (split; [reflexivity|]). f_equal.
  unfold Browser.popstate, popstate, set_page, Browser.set_doc.
  cbn [Browser.doc Browser.location Browser.older currentCourse players
       currentHole gameStarted page storage scorecardModal_active
       playerSetup_hidden holePlay_active summarySection_active].
  destruct s as [[c pl hl g [f1 f2 f3 f4] st] a o]. cbn in *. now subst.
Qed.

Lemma back_closes_scorecards_witness :
  Browser.back (Browser.showScorecards Samples.third_hole) = Some Samples.third_hole.
Proof.
  destruct (back_closes_scorecards Samples.third_hole) as (_ & _ & H);
    [vm_compute; reflexivity | vm_compute; discriminate
     | vm_compute; reflexivity | exact H].
Defined.

(** X7.  hideScorecards after showScorecards does not stop at closing the
    cards.  It removes the flag of the modal first and then asks for
    history.back(), so the popstate listener finds the cards closed and takes
    the navigation for the round: from a hole h > 0 the round is put back to
    hole h - 1, from hole 0 it is stopped and sent back to the setup with the
    stored entry removed. *)
Theorem hideScorecards_takes_a_hole_back s h :
  Playing h (Browser.doc s) ->
  scorecardModal_active (page (Browser.doc s)) = false ->
  players (Browser.doc s) <> [] ->
  exists s',
    Browser.hideScorecards (Browser.showScorecards s) = Some s'
    /\ s' = Browser.popstate s
    /\ scorecardModal_active (page (Browser.doc s')) = false
    /\ players (Browser.doc s') = players (Browser.doc s)
    /\ (0 < h ->
        currentHole (Browser.doc s') = Int (h - 1)
        /\ gameStarted (Browser.doc s') = true
        /\ Browser.location s' = Browser.location s)
    /\ (h = 0 ->
        BackToSetup (Browser.doc s') /\ storage (Browser.doc s') = None
        /\ Browser.location s' = Browser.At_page).
Proof.
  intros (Hg & Hh & Hr & Hc) Hm Hne.
  assert (E : Browser.hideScorecards (Browser.showScorecards s)
              = Some (Browser.popstate s)).
  { unfold Browser.showScorecards, showScorecards.
    destruct (players (Browser.doc s)) as [|p ps] eqn:Hps; [contradiction|].
    rewrite Hc. cbn [negb].
    unfold Browser.hideScorecards, Browser.pushState, Browser.set_doc.
    cbn [Browser.doc Browser.location Browser.older Browser.is_scorecards].
    unfold Browser.back. cbn [Browser.older Browser.doc Browser.location].
    do 2 f_equal.
    destruct s as [[c pl hl g [f1 f2 f3 f4] st] a o]. cbn in *. now subst. }
  exists (Browser.popstate s). split; [exact E|]. split; [reflexivity|].
  unfold Browser.popstate, popstate. rewrite Hm, Hg, Hh. unfold is_int.
  destruct (Z.eqb_spec h 0) as [->|Hn0].
  - unfold Browser.goBackToSetup, Browser.replaceState, Browser.set_doc,
      goBackToSetup, removeItem, set_storage, set_page, set_started, BackToSetup.
    cbn [Browser.doc Browser.location Browser.older currentCourse players
         currentHole gameStarted page storage scorecardModal_active
         playerSetup_hidden holePlay_active summarySection_active].
    split; [exact Hm|]. split; [reflexivity|]. split; [lia|].
    intros _. now repeat split.
  - cbn [decr]. rewrite renderHole_id by (cbn; trivial; lia).
    unfold Browser.set_doc, saveState, set_storage, set_hole.
    cbn [Browser.doc Browser.location Browser.older currentCourse players
         currentHole gameStarted page storage].
    split; [exact Hm|]. split; [reflexivity|]. split; [|lia].
    intros _. now repeat split.
Qed.

Lemma hideScorecards_takes_a_hole_back_witness :
  exists s', Browser.hideScorecards (Browser.showScorecards Samples.third_hole) = Some s'
    /\ currentHole (Browser.doc s') = Int 1.
Proof.
  destruct (hideScorecards_takes_a_hole_back Samples.third_hole 2)
    as (s' & E & _ & _ & _ & H & _).
  - repeat split; try (vm_compute; reflexivity); lia.
  - vm_compute. reflexivity.
  - vm_compute. discriminate.
  - exists s'. split; [exact E|]. now apply H.
Defined.

Lemma allScoresEntered_iff w :
  Panel.allScoresEntered w
  = negb (existsb (fun p => is_null (item (scores p) (currentHole w))) (players w)).
Proof.
  unfold Panel.allScoresEntered. induction (players w) as [|p ps IH]; [reflexivity|].
  cbn [forallb existsb]. rewrite IH. now destruct (is_null _), (existsb _ ps).
Qed.

(** X8.  No key raises an alert: ArrowRight calls nextHole only when every
    player has a score on the hole.  With no round started the keys do
    nothing. *)
Theorem keyboard_never_alerts k s s' n :
  Browser.keydown k s = Some (s', n) ->
  n = None /\ (gameStarted (Browser.doc s) = false -> s' = s).
Proof.
  unfold Browser.keydown.
  destruct (gameStarted (Browser.doc s)) eqn:Hg; cbn [negb].
  2:{ intros [= <- <-]. now split. }
  intros H. split; [|discriminate].
  destruct k.
  - destruct (Browser.previousHole s); cbn in H; now inversion H.
  - rewrite allScoresEntered_iff in H. unfold Browser.nextHole in H.
    destruct (existsb _ (players (Browser.doc s))); cbn [negb] in H;
      [now inversion H|].
    destruct (lt_int _ _); now inversion H.
  - now inversion H.
  - now inversion H.
  - destruct (Browser.hideScorecards s); cbn in H; now inversion H.
  - now inversion H.
Qed.

Lemma keyboard_never_alerts_witness :
  exists s', Browser.keydown Browser.ArrowRight Samples.last_hole = Some (s', None).
Proof.
  destruct (Browser.keydown Browser.ArrowRight Samples.last_hole) as [[s' n]|] eqn:E.
  - destruct (keyboard_never_alerts _ _ _ _ E) as [-> _]. now exists s'.
  - vm_compute in E. discriminate.
Defined.



(** On a hole that has a par, the loop of showScorecards adds up what the
    loop of getParDifferential adds up. *)
Lemma played_loop_par_loop pars a h : forall fuel i sum n,
  0 <= i -> h < Z.of_nat (length pars) ->
  Panel.played_loop fuel i (Int h) pars a (Some sum)
  = Some (fst (par_loop fuel i (Int h) pars a (sum, n))).
Proof.
  induction fuel as [|fuel IH]; intros i sum n Hi Hh; [reflexivity|].
  cbn [Panel.played_loop par_loop]. unfold int_le. cbn [floor].
  destruct (Z.leb_spec i h) as [Hle|Hgt]; [|reflexivity].
  destruct (Z.ltb_spec i (Z.of_nat (length pars))); [|lia]. cbn [andb].
  destruct (is_null (item a (Int i))); [now apply IH; lia|].
  destruct (lookup_lt_is_Some_2 pars (Z.to_nat i)) as [par Hpar]; [lia|].
  rewrite Hpar. cbn [default fst snd]. apply IH; lia.
Qed.

Lemma signed_differential d :
  signed d = if d =? 0 then "E"
             else if 0 <? d then "+" ++ show d else "-" ++ show (- d).
Proof.
  unfold signed. destruct (Z.eqb_spec d 0); [reflexivity|].
  destruct (Z.ltb_spec 0 d); [reflexivity|]. apply show_negative. lia.
Qed.

Lemma Forall2_map_self {A B} (P : A -> B -> Prop) (f : A -> B) l :
  (forall x, In x l -> P x (f x)) -> Forall2 P l (map f l).
Proof.
  induction l as [|x l IH]; intros H; [constructor|].
  cbn [map]. constructor; [apply H; now left|].
  apply IH. intros y Hy. apply H. now right.
Qed.

Lemma scorecards_shown w cs :
  Panel.scorecards w = Some cs ->
  cs = map (Panel.modal_scorecard w (sorted_players (players w))) (players w).
Proof.
  unfold Panel.scorecards. destruct (players w) as [|p ps]; [discriminate|].
  destruct (isValidCourse (currentCourse w)); [|discriminate].
  cbn [negb]. congruence.
Qed.

(** X10.  On a valid course and a hole from 0 to 17, every score card shows
    the player's name and total, as par played the summed par of the holes up
    to the current one that have a score, and as differential E when none has
    one, else the signed difference of the two: the par shown is the par the
    differential of getParDifferential is taken against. *)
Theorem scorecard_totals_agree w h cs :
  isValidCourse (currentCourse w) = true -> currentHole w = Int h ->
  0 <= h <= 17 -> Panel.scorecards w = Some cs ->
  Forall2 (fun p c =>
             let par := running_par the_pars (scores p) (Z.to_nat h) in
             Panel.card_player c = name p
             /\ Panel.card_strokes c = total p
             /\ Panel.card_parPlayed c = Some par
             /\ Panel.card_differential c
                = match played_holes (scores p) (Z.to_nat h) with
                  | [] => "E"
                  | _ => signed (total p - par)
                  end)
    (players w) cs.
Proof.
  intros Hc Hh Hr Hcs. rewrite (scorecards_shown w cs Hcs).
  apply Forall2_map_self.
  intros p _. unfold Panel.modal_scorecard.
  cbn [Panel.card_player Panel.card_strokes Panel.card_parPlayed
       Panel.card_differential].
  do 2 (split; [reflexivity|]).
  rewrite (pars_of_valid _ Hc), Hh.
  split.
  - rewrite (played_loop_par_loop the_pars (scores p) h _ 0 0 0)
      by (cbn; lia).
    cbn [floor]. f_equal.
    replace (Int h) with (Int (Z.of_nat (Z.to_nat h))) by (f_equal; lia).
    change 0 with (Z.of_nat 0) at 1.
    rewrite (par_loop_from the_pars (scores p) (Z.to_nat h) (S (Z.to_nat h)) 0)
      by (cbn; lia).
    reflexivity.
  - rewrite (getParDifferential_cases w p h) by trivial.
    rewrite (pars_of_valid _ Hc).
    destruct (played_holes (scores p) (Z.to_nat h)); [reflexivity|].
    rewrite signed_differential.
    set (par := running_par the_pars (scores p) (Z.to_nat h)).
    destruct (Z.eqb_spec (total p) par), (Z.eqb_spec (total p - par) 0);
      try lia; [reflexivity|].
    destruct (Z.ltb_spec par (total p)), (Z.ltb_spec 0 (total p - par));
      try lia; [reflexivity|].
    do 2 f_equal. lia.
Qed.

Lemma scorecard_totals_agree_witness :
  exists cs, Panel.scorecards Samples.first_hole = Some cs /\ length cs = 2%nat.
Proof.
  destruct (Panel.scorecards Samples.first_hole) as [cs|] eqn:E;
    [|vm_compute in E; discriminate].
  exists cs. split; [reflexivity|].
  pose proof (scorecard_totals_agree Samples.first_hole 0 cs) as H.
  apply Forall2_length in H;
    [|reflexivity | reflexivity | lia | exact E].
  rewrite <- H. reflexivity.
Defined.

Lemma findIndex_unique l : forall i p,
  NoDup (map name l) -> l !! i = Some p ->
  Panel.findIndex (name p) l = Z.of_nat i.
Proof.
  induction l as [|q l IH]; intros i p Hnd Hp; [discriminate|].
  cbn [map] in Hnd. apply NoDup_cons in Hnd as [Hq Hnd].
  cbn [Panel.findIndex]. destruct i as [|i].
  - injection Hp as ->. now rewrite String.eqb_refl.
  - cbn in Hp. destruct (String.eqb_spec (name q) (name p)) as [E|_].
    + exfalso. apply Hq. rewrite E. apply list_elem_of_In, in_map.
      apply list_elem_of_In. eapply list_elem_of_lookup_2; eauto.
    + rewrite (IH i p Hnd Hp).
      destruct (Z.ltb_spec (Z.of_nat i) 0); lia.
Qed.

(** X11.  When no two players have the same name, the rank on a player's
    score card is the rank of the player's card on the leaderboard. *)
Theorem scorecard_rank_is_leaderboard_rank w cs b c :
  NoDup (map name (players w)) ->
  Panel.scorecards w = Some cs -> buildLeaderboard w = Some b -> In c cs ->
  exists lc, In lc (cards b)
    /\ card_name lc = Panel.card_player c
    /\ card_total lc = Panel.card_strokes c
    /\ rank lc = Panel.card_rank c.
Proof.
  intros Hnd Hcs Hb Hc. rewrite (scorecards_shown w cs Hcs) in Hc.
  apply in_map_iff in Hc. destruct Hc as (p & <- & Hp).
  pose proof (sort_perm total (players w)) as Hperm.
  fold (sorted_players (players w)) in Hperm.
  apply (Permutation_in p (Permutation_sym Hperm)) in Hp.
  apply list_elem_of_In, list_elem_of_lookup in Hp. destruct Hp as [i Hi].
  assert (Hnd' : NoDup (map name (sorted_players (players w)))).
  { assert (Hpn : Permutation (map name (sorted_players (players w)))
                                (map name (players w)))
      by now apply Permutation_map.
    now rewrite Hpn. }
  unfold buildLeaderboard in Hb.
  destruct (sorted_players (players w)) as [|winner rest] eqn:Hs; [discriminate|].
  destruct (isValidCourse (currentCourse w)); [|discriminate]. cbn [negb] in Hb.
  set (pars := pars_of (currentCourse w)) in *.
  set (totalPar := fold_left Z.add pars 0) in *.
  assert (Hcards : cards b = imap (leaderboard_card pars totalPar) (winner :: rest))
    by (injection Hb as <-; reflexivity).
  exists (leaderboard_card pars totalPar i p). split.
  - rewrite Hcards. apply list_elem_of_In, elem_of_lookup_imap. now exists i, p.
  - unfold Panel.modal_scorecard.
    cbn [leaderboard_card card_name card_total rank Panel.card_player
         Panel.card_strokes Panel.card_rank].
    do 2 (split; [reflexivity|]).
    now rewrite (findIndex_unique _ i p Hnd' Hi).
Qed.

Lemma scorecard_rank_is_leaderboard_rank_witness :
  exists b c lc,
    buildLeaderboard Samples.first_hole = Some b
    /\ hd_error (default [] (Panel.scorecards Samples.first_hole)) = Some c
    /\ In lc (cards b) /\ rank lc = Panel.card_rank c.
Proof.
  destruct (buildLeaderboard Samples.first_hole) as [b|] eqn:Eb;
    [|vm_compute in Eb; discriminate].
  destruct (Panel.scorecards Samples.first_hole) as [cs|] eqn:Ec;
    [|vm_compute in Ec; discriminate].
  destruct cs as [|c cs]; [vm_compute in Ec; discriminate|].
  destruct (scorecard_rank_is_leaderboard_rank Samples.first_hole (c :: cs) b c)
    as (lc & Hin & _ & _ & Hr).
  - apply NoDup_cons. split; [|apply NoDup_singleton].
    intros H. apply list_elem_of_In in H. destruct H as [H|[]]. discriminate.
  - exact Ec.
  - exact Eb.
  - now left.
  - exists b, c, lc. cbn [default hd_error]. now repeat split.
Defined.

(** ** The leaderboard *)

Lemma filter_all {A} (f : A -> bool) l :
  (forall x, In x l -> f x = true) -> List.filter f l = l.
Proof.
  induction l as [|x l IH]; intros H; [reflexivity|].
  cbn [List.filter]. rewrite (H x) by now left.
  f_equal. apply IH. intros y Hy. apply H. now right.
Qed.

Lemma full_round_differential w p :
  isValidCourse (currentCourse w) = true -> currentHole w = Int 17 ->
  (forall i, 0 <= i <= 17 -> is_null (item (scores p) (Int i)) = false) ->
  getParDifferential w p = signed (total p - 46).
Proof.
  intros Hc Hh Hall.
  rewrite (getParDifferential_cases w p 17) by (trivial; lia).
  rewrite (pars_of_valid _ Hc).
  assert (E : played_holes (scores p) (Z.to_nat 17) = seq 0 18).
  { unfold played_holes. apply filter_all. intros i Hi.
    apply in_seq in Hi. unfold played. rewrite Hall by lia. reflexivity. }
  unfold running_par. rewrite E. rewrite signed_differential.
  change (par_sum the_pars (seq 0 18)) with 46.
  cbn [seq].
  destruct (Z.eqb_spec (total p) 46), (Z.eqb_spec (total p - 46) 0); try lia;
    [reflexivity|].
  destruct (Z.ltb_spec 46 (total p)), (Z.ltb_spec 0 (total p - 46)); try lia;
    [reflexivity|].
  do 2 f_equal. lia.
Qed.

Lemma all_scored_check a :
  forallb (fun i => negb (is_null (item a (Int (Z.of_nat i))))) (seq 0 18) = true ->
  forall i, 0 <= i <= 17 -> is_null (item a (Int i)) = false.
Proof.
  intros H i Hi. rewrite forallb_forall in H.
  specialize (H (Z.to_nat i)). rewrite Z2Nat.id in H by lia.
  apply negb_true_iff, H, in_seq. lia.
Qed.

(** X12.  When every player has a score on all 18 holes and the round is on
    hole 17, each card of the leaderboard is the card of a player, with the
    player's total, par 46, and the differential that getParDifferential
    gives for that player on the play screen. *)
Theorem summary_matches_play_screen w b c :
  isValidCourse (currentCourse w) = true -> currentHole w = Int 17 ->
  (forall p, In p (players w) -> forall i, 0 <= i <= 17 ->
     is_null (item (scores p) (Int i)) = false) ->
  buildLeaderboard w = Some b -> In c (cards b) ->
  exists p, In p (players w)
    /\ card_name c = name p /\ card_total c = total p /\ card_par c = 46
    /\ displayDiff c = getParDifferential w p.
Proof.
  intros Hc Hh Hall Hb Hin. unfold buildLeaderboard in Hb.
  destruct (sorted_players (players w)) as [|winner rest] eqn:Hs; [discriminate|].
  rewrite Hc, (pars_of_valid _ Hc) in Hb. cbn [negb] in Hb.
  assert (Hcards : cards b = imap (leaderboard_card the_pars 46) (winner :: rest))
    by (injection Hb as <-; reflexivity).
  rewrite Hcards in Hin. clear Hb Hcards.
  apply list_elem_of_In, elem_of_lookup_imap in Hin.
  destruct Hin as (i & p & -> & Hp).
  assert (Hp' : In p (players w)).
  { apply (Permutation_in p (sort_perm total (players w))).
    fold (sorted_players (players w)). rewrite Hs.
    apply list_elem_of_In. eapply list_elem_of_lookup_2; eauto. }
  exists p. split; [exact Hp'|]. cbn [leaderboard_card card_name card_total
    card_par displayDiff].
  do 3 (split; [reflexivity|]).
  rewrite (full_round_differential w p); trivial. now apply Hall.
Qed.

Lemma summary_matches_play_screen_witness :
  exists b c p,
    buildLeaderboard (Browser.doc Samples.last_hole) = Some b
    /\ In c (cards b) /\ In p (players (Browser.doc Samples.last_hole))
    /\ displayDiff c = getParDifferential (Browser.doc Samples.last_hole) p.
Proof.
  assert (Hb : exists b c,
            buildLeaderboard (Browser.doc Samples.last_hole) = Some b /\ In c (cards b)).
  { vm_compute. do 2 eexists. split; [reflexivity|]. left. reflexivity. }
  destruct Hb as (b & c & Eb & Hc).
  destruct (summary_matches_play_screen (Browser.doc Samples.last_hole) b c)
    as (p & Hp & _ & _ & _ & Hd);
    [vm_compute; reflexivity | vm_compute; reflexivity | | exact Eb | exact Hc | ].
  - intros p Hp. apply all_scored_check.
    assert (Hps : players (Browser.doc Samples.last_hole)
                  = [Player "Amy" (replicate 18 (Strokes 3)) 54;
                     Player "Bo" (replicate 18 (Strokes 3)) 54])
      by (vm_compute; reflexivity).
    rewrite Hps in Hp.
    destruct Hp as [<- | [<- | []]]; vm_compute; reflexivity.
  - exists b, c, p. split; [exact Eb|]. split; [exact Hc|].
    split; [exact Hp | exact Hd].
Defined.

Lemma filter_head_split {A} (f : A -> bool) l x r :
  List.filter f l = x :: r ->
  exists front back, l = (front ++ x :: back)%list
    /\ forall y, In y front -> f y = false.
Proof.
  induction l as [|a l IH]; cbn [List.filter]; [discriminate|].
  destruct (f a) eqn:Ha.
  - intros [= -> _]. exists [], l. split; [reflexivity|]. intros y [].
  - intros H. destruct (IH H) as (front & back & -> & Hf).
    exists (a :: front), back. split; [reflexivity|].
    intros y [<- | Hy]; [exact Ha | now apply Hf].
Qed.

(** X13.  The leaderboard has one card per player, ranked 1, 2, ... in
    order.  The winner it announces has the lowest total, and among the
    players with that total is the one entered first. *)
Theorem leaderboard_winner w b :
  buildLeaderboard w = Some b ->
  length (cards b) = length (players w)
  /\ (forall i c, cards b !! i = Some c -> rank c = Z.of_nat i + 1)
  /\ exists p front back,
       players w = (front ++ p :: back)%list
       /\ winner_name b = name p /\ winner_total b = total p
       /\ (forall q, In q (players w) -> total p <= total q)
       /\ (forall q, In q front -> total p < total q).
Proof.
  intros Hb. unfold buildLeaderboard in Hb.
  destruct (sorted_players (players w)) as [|winner rest] eqn:Hs; [discriminate|].
  destruct (isValidCourse (currentCourse w)); [|discriminate]. cbn [negb] in Hb.
  set (pars := pars_of (currentCourse w)) in *.
  set (totalPar := fold_left Z.add pars 0) in *.
  assert (Hcards : cards b = imap (leaderboard_card pars totalPar) (winner :: rest))
    by (injection Hb as <-; reflexivity).
  assert (Hname : winner_name b = name winner) by (injection Hb as <-; reflexivity).
  assert (Htotal : winner_total b = total winner) by (injection Hb as <-; reflexivity).
  clear Hb.
  pose proof (sort_perm total (players w)) as Hperm.
  pose proof (sort_ordered total (players w)) as Hord.
  pose proof (sort_stable total (total winner) (players w)) as Hstable.
  fold (sorted_players (players w)) in Hperm, Hord, Hstable.
  rewrite Hs in Hperm, Hord, Hstable.
  split.
  { rewrite Hcards, length_imap. now apply Permutation_length. }
  split.
  { intros i c Hc. rewrite Hcards in Hc. rewrite list_lookup_imap in Hc.
    destruct ((winner :: rest) !! i); [|discriminate].
    cbn in Hc. now injection Hc as <-. }
  assert (Hmin : forall q, In q (players w) -> total winner <= total q).
  { intros q Hq. apply (Permutation_in q (Permutation_sym Hperm)) in Hq.
    apply StronglySorted_inv in Hord as [_ Hall].
    destruct Hq as [<- | Hq]; [lia|].
    rewrite List.Forall_forall in Hall. now apply Hall. }
  rewrite filter_key_head in Hstable by reflexivity. symmetry in Hstable.
  destruct (filter_head_split _ _ _ _ Hstable) as (front & back & Hsplit & Hfront).
  exists winner, front, back. repeat (split; [assumption|]).
  intros q Hq. specialize (Hfront q Hq). cbv beta in Hfront.
  apply Z.eqb_neq in Hfront.
  assert (total winner <= total q); [|lia].
  apply Hmin. rewrite Hsplit. apply in_or_app. now left.
Qed.

Lemma leaderboard_winner_witness :
  exists b, buildLeaderboard Samples.three_players = Some b
    /\ length (cards b) = 3%nat.
Proof.
  destruct (buildLeaderboard Samples.three_players) as [b|] eqn:Eb;
    [|vm_compute in Eb; discriminate].
  exists b. split; [reflexivity|].
  destruct (leaderboard_winner Samples.three_players b Eb) as (H & _).
  rewrite H. reflexivity.
Defined.

(** X14.  The achievements of the leaderboard and the description of a
    score part on a hole in one: the Eagle achievement is given whenever the
    score is two or more under par, a hole in one on a par of 3 or more
    included, while getScoreDescription calls a score an eagle only when it is
    no hole in one. *)
Theorem eagle_achievement_counts_aces pars hi n par :
  pars !! hi = Some par ->
  (In "⭐ Hole in One" (score_achievements pars hi (Strokes n)) <-> n = 1)
  /\ (In "🦅 Eagle" (score_achievements pars hi (Strokes n)) <-> n - par <= -2)
  /\ (class (getScoreDescription n par) = "eagle" <-> n <> 1 /\ n - par <= -2)
  /\ (class (getScoreDescription n par) = "hole-in-one" <-> n = 1).
Proof.
  intros Hpar. unfold score_achievements. rewrite Hpar.
  split; [|split; [|split]].
  - destruct (Z.eqb_spec n 1), (Z.leb_spec (n - par) (-2)); cbn [app In];
      intuition (try discriminate; try lia).
  - destruct (Z.eqb_spec n 1), (Z.leb_spec (n - par) (-2)); cbn [app In];
      intuition (try discriminate; try lia).
  - unfold getScoreDescription.
    destruct (Z.eqb_spec n 1); [cbn; intuition (try discriminate; try lia)|].
    destruct (Z.leb_spec (n - par) (-2)); [cbn; intuition (try discriminate; try lia)|].
    destruct (Z.eqb_spec (n - par) (-1)); [cbn; intuition (try discriminate; try lia)|].
    destruct (Z.eqb_spec (n - par) 0); [cbn; intuition (try discriminate; try lia)|].
    destruct (Z.eqb_spec (n - par) 1); [cbn; intuition (try discriminate; try lia)|].
    destruct (Z.eqb_spec (n - par) 2); cbn; intuition (try discriminate; try lia).
  - unfold getScoreDescription.
    destruct (Z.eqb_spec n 1); [cbn; intuition (try discriminate; try lia)|].
    destruct (Z.leb_spec (n - par) (-2)); [cbn; intuition (try discriminate; try lia)|].
    destruct (Z.eqb_spec (n - par) (-1)); [cbn; intuition (try discriminate; try lia)|].
    destruct (Z.eqb_spec (n - par) 0); [cbn; intuition (try discriminate; try lia)|].
    destruct (Z.eqb_spec (n - par) 1); [cbn; intuition (try discriminate; try lia)|].
    destruct (Z.eqb_spec (n - par) 2); cbn; intuition (try discriminate; try lia).
Qed.

Lemma eagle_achievement_counts_aces_witness :
  In "🦅 Eagle" (score_achievements the_pars 1 (Strokes 1))
  /\ class (getScoreDescription 1 3) = "hole-in-one".
Proof.
  destruct (eagle_achievement_counts_aces the_pars 1 1 3) as (_ & H2 & _ & H4);
    [reflexivity|].
  split; [apply H2; lia | now apply H4].
Defined.

(** ** Scores and storage *)

Lemma assign_assign a x v1 v2 : assign (assign a x v1) x v2 = assign a x v2.
Proof.
  unfold assign. destruct (index x) as [i|]; [|reflexivity].
  destruct (Nat.ltb_spec i (length a)) as [Hlt|Hge].
  - rewrite length_insert.
    destruct (Nat.ltb_spec i (length a)); [|lia].
    apply list_insert_insert_eq.
  - rewrite !length_app, length_replicate. cbn [length].
    destruct (Nat.ltb_spec i (length a + (i - length a + 1))); [|lia].
    rewrite insert_app_r_alt by lia.
    rewrite insert_app_r_alt by (rewrite length_replicate; lia).
    rewrite length_replicate.
    replace (i - length a - (i - length a))%nat with 0%nat by lia.
    reflexivity.
Qed.

Lemma record_record hole s1 s2 p :
  record hole s2 (record hole s1 p) = record hole s2 p.
Proof.
  unfold record. cbn [scores name]. now rewrite assign_assign.
Qed.

Lemma alter_alter_record hole s1 s2 (i : nat) (ps : list player) :
  alter (record hole s2) i (alter (record hole s1) i ps)
  = alter (record hole s2) i ps.
Proof.
  apply list_eq. intros j. destruct (decide (i = j)) as [<-|Hne].
  - rewrite !list_lookup_alter_eq. destruct (ps !! i); [|reflexivity].
    cbn. now rewrite record_record.
  - now rewrite !list_lookup_alter_ne.
Qed.

(** X15.  On a hole from 0 to 17 a valid score replaces what was recorded
    before: updateScore for a player after any updateScore for the same player
    gives the world that the second call alone gives. *)
Theorem updateScore_last_wins idx v1 v2 s2 w :
  0 <= floor (currentHole w) <= 17 ->
  parseInt v2 = Some s2 -> 1 <= s2 <= 11 ->
  fst (updateScore idx v2 (fst (updateScore idx v1 w)))
  = fst (updateScore idx v2 w).
Proof.
  intros Hr Hv2 Hs2.
  destruct (isValidCourse (currentCourse w)) eqn:Hc.
  2:{ assert (E : forall v, fst (updateScore idx v w) = w).
      { intros v. unfold updateScore. rewrite Hc.
        destruct (parseInt v); [|reflexivity].
        now destruct (isValidPlayerIndex w idx), (isValidScore _). }
      now rewrite !E. }
  destruct (updateScore_cases idx v1 w Hc Hr)
    as [E | (s1 & i & _ & _ & Hi & Hlen & E)]; rewrite E; cbn [fst];
    [reflexivity|].
  unfold updateScore. rewrite Hv2.
  assert (Hidx : forall ps, length ps = length (players w) ->
            isValidPlayerIndex (set_players ps w) idx = true).
  { intros ps Hps. apply isValidPlayerIndex_iff. exists i. cbn. now rewrite Hps. }
  assert (Hi1 : isValidPlayerIndex w idx = true)
    by (apply isValidPlayerIndex_iff; now exists i).
  assert (Hi2 : isValidPlayerIndex
                  (saveState (set_players
                     (alter (record (currentHole w) s1) i (players w)) w)) idx
                = true)
    by (apply isValidPlayerIndex_iff; exists i; cbn; now rewrite length_alter).
  rewrite Hi1, Hi2, (proj2 (isValidScore_iff s2) Hs2).
  cbn [negb currentCourse saveState set_storage set_players]. rewrite Hc.
  cbn [negb fst]. subst idx. cbn [floor].
  unfold saveState, set_storage, set_players.
  cbn [currentCourse players currentHole gameStarted page storage].
  rewrite Nat2Z.id, alter_alter_record.
  rewrite !renderHole_id by (cbn; trivial).
  reflexivity.
Qed.

Lemma updateScore_last_wins_witness :
  fst (updateScore (Int 0) "2" (fst (updateScore (Int 0) "5" Samples.first_hole)))
  = fst (updateScore (Int 0) "2" Samples.first_hole).
Proof.
  apply (updateScore_last_wins (Int 0) "5" "2" 2);
    [cbn; lia | reflexivity | lia].
Defined.

(** X16.  When loadState returns false the players, the hole number and
    the page are what they were, no entry is left that a second loadState
    could refuse, and the course and the started flag are what they were too,
    unless the call was broken off by the name of a stored player: then the
    course is the valid one of the snapshot and the started flag the one of
    the snapshot. *)
Theorem refused_load_keeps_players text_of w :
  snd (loadState text_of w) = false ->
  let w' := fst (loadState text_of w) in
  players w' = players w /\ currentHole w' = currentHole w
  /\ page w' = page w
  /\ (storage w' = None \/ storage w' = Some EmptyText)
  /\ loadState text_of w' = (w', false)
  /\ ((currentCourse w' = currentCourse w /\ gameStarted w' = gameStarted w)
      \/ exists parsed ps,
           storage w = Some (Document parsed)
           /\ prop parsed "players" = Some (JArr ps)
           /\ load_players text_of ps = None
           /\ isValidCourse (currentCourse w') = true
           /\ gameStarted w' = truthy (prop parsed "gameStarted")).
Proof.
  unfold loadState at 1 2.
  destruct (storage w) as [[| |parsed]|] eqn:Hst.
  - intros _. cbn [fst]. unfold loadState. rewrite Hst. repeat split; auto.
  - intros _. cbn. repeat split; auto.
  - assert (Hrm : let w' := removeItem w in
             players w' = players w /\ currentHole w' = currentHole w
             /\ page w' = page w
             /\ (storage w' = None \/ storage w' = Some EmptyText)
             /\ loadState text_of w' = (w', false)
             /\ ((currentCourse w' = currentCourse w
                  /\ gameStarted w' = gameStarted w)
                 \/ exists parsed0 ps,
                      Some (Document parsed) = Some (Document parsed0)
                      /\ prop parsed0 "players" = Some (JArr ps)
                      /\ load_players text_of ps = None
                      /\ isValidCourse (currentCourse w') = true
                      /\ gameStarted w' = truthy (prop parsed0 "gameStarted")))
      by (cbn; repeat split; auto).
    destruct parsed as [|b|n|s|items|fields]; try (intros _; exact Hrm);
      (destruct (isValidCourseValue text_of _) eqn:Hv; cbn [negb];
       [|intros _; exact Hrm]);
      (destruct (prop _ "players") as [[| | | |[|p ps]|]|] eqn:Hp;
       try (intros _; exact Hrm));
      (destruct (prop _ "hole") as [[| |hole| | |]|];
       try (intros _; exact Hrm));
      (destruct (lt_int hole 0 || ge_int hole HOLES_COUNT);
       [intros _; exact Hrm|]);
      (destruct (isValidCourseValue_key _ _ Hv) as (key & Hk & Hkey));
      rewrite Hk;
      (destruct (load_players text_of (p :: ps)) as [loaded|] eqn:Hl;
       [discriminate|]);
      intros _; cbn [fst]; unfold interrupted;
      (split; [reflexivity|]); (split; [reflexivity|]);
      (split; [reflexivity|]); (split; [now left|]);
      (split; [reflexivity|]); right;
      eexists; exists (p :: ps); repeat split; eauto.
  - intros _. cbn [fst]. unfold loadState. rewrite Hst. repeat split; auto.
Qed.

Lemma refused_load_keeps_players_witness :
  players (fst (loadState Samples.no_text
                  (set_storage (Some Malformed) Samples.first_hole)))
  = players Samples.first_hole.
Proof.
  destruct (refused_load_keeps_players Samples.no_text
              (set_storage (Some Malformed) Samples.first_hole)) as (H & _);
    [reflexivity | exact H].
Defined.

(** X17.  A course chosen before the round, with no players yet, is
    written to the storage; the next loadState refuses that snapshot for its
    empty player list and removes it. *)
Theorem course_choice_not_kept text_of course w :
  gameStarted w = false -> players w = [] ->
  let w1 := selectCourse course w in
  currentCourse w1 = course
  /\ storage w1 = Some (Document (snapshot (set_course course w)))
  /\ loadState text_of w1 = (removeItem w1, false).
Proof.
  intros Hg Hp. unfold selectCourse. rewrite Hg.
  do 2 (split; [reflexivity|]).
  unfold loadState, saveState, set_storage, set_course. unfold snapshot.
  cbn [storage currentCourse players gameStarted currentHole prop lookup_field
       String.eqb Ascii.eqb Bool.eqb].
  rewrite Hp. cbn [map].
  now destruct (isValidCourseValue text_of (Some (JStr course))).
Qed.

Lemma course_choice_not_kept_witness :
  loadState Samples.no_text (selectCourse "knight" Samples.fresh)
  = (removeItem (selectCourse "knight" Samples.fresh), false).
Proof.
  destruct (course_choice_not_kept Samples.no_text "knight" Samples.fresh)
    as (_ & _ & H); [reflexivity | reflexivity | exact H].
Defined.




Import Ini.

(** ** The hole stories *)

Lemma trimStart_head s c r : trimStart s = String c r -> white c = false.
Proof.
  induction s as [|a s IH]; cbn [trimStart]; [discriminate|].
  destruct (white a) eqn:Ha; [exact IH|]. now intros [= <- _].
Qed.

Lemma trimEnd_head s c r : trimEnd s = String c r -> exists r', s = String c r'.
Proof.
  destruct s as [|a s]; cbn [trimEnd]; [discriminate|].
  destruct (trimEnd s); [destruct (white a); [discriminate|]|];
    intros [= <- _]; now eexists.
Qed.

Lemma trim_head s c r : trim s = String c r -> white c = false.
Proof.
  unfold trim. intros H. apply trimEnd_head in H as [r' H].
  now apply trimStart_head in H.
Qed.

Lemma trim_nonwhite c r : white c = false -> trim (String c r) <> "".
Proof.
  intros Hc. unfold trim. cbn [trimStart]. rewrite Hc. cbn [trimEnd].
  destruct (trimEnd r); [rewrite Hc|]; discriminate.
Qed.

(** The key parseINI stores is never empty: the line is trimmed, so what
    stands before an '=' found past its first character starts with a
    character that is no white space. *)
Lemma key_nonempty raw idx :
  trim raw <> "" -> (0 < idx)%nat -> trim (slice0 idx (trim raw)) <> "".
Proof.
  intros Hne Hidx. destruct (trim raw) as [|c r] eqn:Hl; [contradiction|].
  destruct idx as [|idx]; [lia|]. unfold slice0. cbn [substring].
  apply trim_nonwhite. now apply trim_head with raw r.
Qed.








Lemma parse_lines_nonblank ls : forall st,
  parse_lines st ls = parse_lines st (List.filter nonblank ls).
Proof.
  unfold parse_lines. induction ls as [|l ls IH]; intros st; [reflexivity|].
  cbn [fold_left List.filter]. unfold nonblank at 1.
  destruct (String.eqb_spec l "") as [->|Hne]; cbn [negb fold_left].
  - rewrite <- IH. f_equal. now destruct st.
  - apply IH.
Qed.

Lemma split_breaks_after s :
  List.filter nonblank (split_breaks "" true s)
  = List.filter nonblank (split_breaks "" false s).
Proof.
  destruct s as [|c s]; [reflexivity|]. cbn [split_breaks].
  destruct (is_break c); reflexivity.
Qed.

Lemma split_breaks_cut c b : is_break c = true -> forall a acc after,
  (after = true -> acc = "") ->
  List.filter nonblank (split_breaks acc after (a ++ String c b))
  = (List.filter nonblank (split_breaks acc after a)
     ++ List.filter nonblank (split_breaks "" false b))%list.
Proof.
  intros Hc. induction a as [|x a IH]; intros acc after Hacc.
  - change (append "" (String c b)) with (String c b).
    cbn [split_breaks]. rewrite Hc.
    destruct after.
    + rewrite (Hacc eq_refl). cbn [List.filter nonblank String.eqb negb app].
      apply split_breaks_after.
    + cbn [List.filter]. destruct (nonblank acc); cbn [app];
        now rewrite split_breaks_after.
  - change (append (String x a) (String c b)) with (String x (append a (String c b))).
    cbn [split_breaks]. destruct (is_break x).
    + destruct after.
      * now apply IH.
      * cbn [List.filter]. rewrite (IH "" true) by reflexivity.
        now destruct (nonblank acc).
    + apply IH. discriminate.
Qed.

(** X21.  parseINI works line by line: a text cut at any line break is
    parsed by parsing the first part and going on, table and section in hand,
    with the second. *)
Theorem parseINI_line_by_line c a b st :
  is_break c = true ->
  parse_lines st (lines (a ++ String c b))
  = parse_lines (parse_lines st (lines a)) (lines b).
Proof.
  intros Hc.
  rewrite (parse_lines_nonblank (lines (a ++ String c b))).
  unfold lines. rewrite (split_breaks_cut c b Hc a "" false) by discriminate.
  unfold parse_lines at 1. rewrite fold_left_app.
  fold (parse_lines st (List.filter nonblank (split_breaks "" false a))).
  rewrite <- parse_lines_nonblank.
  fold (parse_lines (parse_lines st (split_breaks "" false a))
          (List.filter nonblank (split_breaks "" false b))).
  now rewrite <- parse_lines_nonblank.
Qed.

Lemma parseINI_line_by_line_witness :
  parseINI (Samples.stories_head ++ String Samples.LF Samples.stories_tail)
  = fst (parse_lines (parse_lines (no_table, None) (lines Samples.stories_head))
           (lines Samples.stories_tail)).
Proof.
  exact (f_equal fst (parseINI_line_by_line Samples.LF Samples.stories_head Samples.stories_tail
                        (no_table, None) eq_refl)).
Defined.

Lemma parse_line_ignored st raw : ignored raw = true -> parse_line st raw = st.
Proof.
  unfold ignored, parse_line. destruct st as [data section].
  destruct (String.eqb (trim raw) "" || startsWith ";" (trim raw)); [reflexivity|].
  cbn [orb]. destruct (startsWith "[" (trim raw) && endsWith "]" (trim raw));
    [discriminate|]. cbn [negb andb].
  destruct section as [sec|]; [|reflexivity].
  destruct (String.eqb sec ""); [reflexivity|].
  destruct (indexOf "=" (trim raw)) as [[|idx]|]; (reflexivity || discriminate).
Qed.

Lemma append_empty s : append s "" = s.
Proof.
  induction s as [|x s IH]; [reflexivity|].
  change (append (String x s) "") with (String x (append s "")). now f_equal.
Qed.

Lemma append_one acc c s :
  append (append acc (String c "")) s = append acc (String c s).
Proof.
  induction acc as [|x acc IH]; [reflexivity|].
  change (String x (append (append acc (String c "")) s)
          = String x (append acc (String c s))).
  now f_equal.
Qed.

Lemma split_breaks_one_line s : forall acc,
  one_line s = true -> split_breaks acc false s = [append acc s].
Proof.
  induction s as [|c s IH]; intros acc Hs; cbn [split_breaks].
  - now rewrite append_empty.
  - cbn [one_line] in Hs. apply andb_true_iff in Hs as [Hc Hs].
    destruct (is_break c); [discriminate|]. rewrite IH by assumption.
    now rewrite append_one.
Qed.

(** X22.  A line that is blank, a comment, or neither a header nor a line
    with an '=' past its first character can be put between any two lines of a
    text without changing what is parsed. *)
Theorem ignored_line_is_inert c1 c2 a note b st :
  is_break c1 = true -> is_break c2 = true ->
  one_line note = true -> ignored note = true ->
  parse_lines st (lines (a ++ String c1 (note ++ String c2 b)))
  = parse_lines st (lines (a ++ String c1 b)).
Proof.
  intros H1 H2 Hone Hig.
  rewrite !(parseINI_line_by_line c1 a) by assumption.
  rewrite (parseINI_line_by_line c2 note b) by assumption.
  f_equal. unfold lines. rewrite (split_breaks_one_line note "" Hone).
  unfold parse_lines. cbn [fold_left]. now apply parse_line_ignored.
Qed.

Lemma ignored_line_is_inert_witness :
  parse_lines (no_table, None)
    (lines (Samples.stories_head ++ String Samples.LF ("; a note" ++ String Samples.LF Samples.stories_tail)))
  = parse_lines (no_table, None) (lines (Samples.stories_head ++ String Samples.LF Samples.stories_tail)).
Proof.
  apply ignored_line_is_inert; reflexivity.
Defined.

Lemma strip_open_section sec data :
  IniV1.strip (open_section sec data) = open_section sec (IniV1.strip data).
Proof.
  unfold open_section, IniV1.strip. destruct (String.eqb sec "__proto__"); cbn.
  - now rewrite delete_empty.
  - now rewrite fmap_insert, delete_empty.
Qed.

Lemma strip_alter key value sec (m : gmap string (gmap string string)) :
  key <> "" ->
  delete "" <$> alter (insert key value) sec m
  = alter (insert key value) sec (delete "" <$> m).
Proof.
  intros Hk. apply map_eq. intros s. rewrite lookup_fmap.
  destruct (decide (sec = s)) as [<-|Hne].
  - rewrite !lookup_alter_eq, lookup_fmap.
    destruct (m !! sec); [|reflexivity]. cbn. f_equal.
    now apply delete_insert_ne.
  - now rewrite !lookup_alter_ne, lookup_fmap.
Qed.

Lemma strip_put sec key value data :
  key <> "" -> IniV1.strip (put sec key value data) = put sec key value (IniV1.strip data).
Proof.
  intros Hk. unfold put. destruct (String.eqb key "__proto__"); [reflexivity|].
  unfold IniV1.strip. destruct (String.eqb sec "__proto__"); cbn [sections inherited].
  - f_equal. destruct (inherited data); [|reflexivity]. cbn. f_equal.
    now apply delete_insert_ne.
  - f_equal. now apply strip_alter.
Qed.

Lemma strip_put_empty sec value data :
  IniV1.strip (put sec "" value data) = IniV1.strip data.
Proof.
  unfold put. cbn [String.eqb].
  unfold IniV1.strip. destruct (String.eqb sec "__proto__"); cbn [sections inherited].
  - f_equal. destruct (inherited data); [|reflexivity]. cbn. f_equal.
    apply delete_insert_eq.
  - f_equal. apply map_eq. intros s. rewrite !lookup_fmap.
    destruct (decide (sec = s)) as [<-|Hne].
    + rewrite lookup_alter_eq. destruct (sections data !! sec); [|reflexivity].
      cbn. f_equal. apply delete_insert_eq.
    + now rewrite lookup_alter_ne.
Qed.

Lemma parse_line_strip data section raw :
  parse_line (IniV1.strip data, section) raw
  = (IniV1.strip (fst (IniV1.parse_line (data, section) raw)),
     snd (IniV1.parse_line (data, section) raw)).
Proof.
  unfold parse_line, IniV1.parse_line.
  destruct (String.eqb_spec (trim raw) "") as [|Hne]; [reflexivity|].
  cbn [orb]. destruct (startsWith ";" (trim raw)); [reflexivity|].
  destruct (startsWith "[" (trim raw) && endsWith "]" (trim raw)).
  { cbn [fst snd]. now rewrite strip_open_section. }
  destruct section as [sec|]; [|reflexivity].
  destruct (String.eqb sec ""); [reflexivity|].
  destruct (indexOf "=" (trim raw)) as [idx|]; [|reflexivity].
  cbn [fst snd]. destruct idx as [|idx].
  - cbn [Nat.ltb Nat.leb]. unfold slice0 at 1. 
    replace (substring 0 0 (trim raw)) with "" by (now destruct (trim raw)).
    change (trim "") with "". now rewrite strip_put_empty.
  - cbn [Nat.ltb Nat.leb]. rewrite strip_put; [reflexivity|].
    apply key_nonempty; [assumption | lia].
Qed.

Lemma parseINI_strip text :
  parseINI text = IniV1.strip (IniV1.parseINI text).
Proof.
  unfold parseINI, IniV1.parseINI, parse_lines.
  assert (H : forall ls data section,
            fold_left parse_line ls (IniV1.strip data, section)
            = (IniV1.strip (fst (fold_left IniV1.parse_line ls (data, section))),
               snd (fold_left IniV1.parse_line ls (data, section)))).
  { induction ls as [|l ls IH]; intros data section; [reflexivity|].
    cbn [fold_left]. rewrite parse_line_strip.
    destruct (IniV1.parse_line (data, section) l) as [d s]. apply IH. }
  change (no_table, None) with (IniV1.strip no_table, @None string) at 1.
  now rewrite H.
Qed.

Lemma show_nonempty z : show z <> "".
Proof.
  unfold show. destruct z as [|p|p]; cbn [Z.to_int NilZero.string_of_int];
    [discriminate| |discriminate].
  unfold NilZero.string_of_uint. destruct (Pos.to_uint p); discriminate.
Qed.

(** X23.  The parser of the hardened listing returns what the v1.1 parser
    returns, without the entries under the empty key that only v1.1 makes
    (from lines that start with '=').  Every entry with another key is the
    same, and so is the story of every hole on a valid course. *)
Theorem stories_same_as_v1 text course hole :
  parseINI text = IniV1.strip (IniV1.parseINI text)
  /\ (forall section key, key <> "" ->
     entry_of (parseINI text) section key
     = entry_of (IniV1.parseINI text) section key)
  /\ (isValidCourse course = true ->
      holeStory (parseINI text) course hole
      = holeStory (IniV1.parseINI text) course hole).
Proof.
  rewrite parseINI_strip.
  set (old := IniV1.parseINI text). split; [reflexivity|]. split.
  - intros section key Hk. unfold entry_of, IniV1.strip. cbn [sections].
    rewrite lookup_fmap. destruct (sections old !! section); [|reflexivity].
    cbn. now apply lookup_delete_ne.
  - intros Hv.
    assert (Hc : course <> "")
      by (apply isValidCourse_inv in Hv as [-> | ->]; discriminate).
    unfold holeStory, course_stories, IniV1.strip. cbn [sections inherited].
    rewrite lookup_fmap. destruct (sections old !! course); cbn.
    + rewrite lookup_delete_ne; [reflexivity|].
      intros E. symmetry in E. now apply show_nonempty in E.
    + destruct (inherited old); [|reflexivity]. cbn.
      rewrite lookup_delete_ne by congruence. reflexivity.
Qed.

(** X24.  On a valid course the story shown for a hole is never empty: it
    is the entry of the course for the hole number when there is one that is
    not empty, and 'Your quest continues...' when the table has nothing for
    the course. *)
Theorem holeStory_is_never_blank stories course hole :
  isValidCourse course = true ->
  holeStory stories course hole <> ""
  /\ (course_stories stories course = Nothing_found ->
      holeStory stories course hole = "Your quest continues...")
  /\ (forall text,
        entry_of stories course (show (hole + 1)) = Some text -> text <> "" ->
        holeStory stories course hole = text).
Proof.
  intros _. split; [|split].
  - unfold holeStory.
    match goal with |- context [match ?x with Some _ => _ | None => _ end] =>
      destruct x as [text|] end; [|discriminate].
    destruct (String.eqb_spec text ""); [discriminate | assumption].
  - intros H. unfold holeStory. now rewrite H.
  - intros text He Hne. unfold entry_of in He. unfold holeStory, course_stories.
    destruct (sections stories !! course) as [keys|]; [|discriminate].
    rewrite He. now destruct (String.eqb_spec text "").
Qed.

Lemma holeStory_is_never_blank_witness :
  holeStory (parseINI (Samples.stories_head ++ String Samples.LF Samples.stories_tail))
    "dragon" 0
  = "The gate = open".
Proof.
  destruct (holeStory_is_never_blank
              (parseINI (Samples.stories_head ++ String Samples.LF Samples.stories_tail))
              "dragon" 0) as (_ & _ & H); [reflexivity|].
  apply H; [vm_compute; reflexivity | discriminate].
Defined.

End Facts.
